(** * jazz_standards_playlist.py: citation extraction, catalog resolution
      and playlist assembly

    A shallow embedding of [JazzStandardsSpotifyPlaylist] (the methods
    [scrape_top_100_standards], [scrape_recommended_recordings],
    [search_spotify_track], [create_playlist], [add_tracks_to_playlist]
    and [run]) together with the properties of the extraction, resolution
    and assembly pipeline.

    Conventions of the model.
    - Python [str] values are [string]s of 8-bit characters; [lower],
      [strip] and [split] act on the ASCII range the way CPython does.
    - The outside world (HTTP, the regular-expression engine, the Spotify
      client, standard input) is reached through a record of services over
      an abstract world state; every call that matters to a property leaves
      an [event] in a log.
    - [try: ... except Exception] is [try_except]; code that can raise lives
      in [M], code that cannot raise lives in [St]. *)

From Stdlib Require Import List String Ascii Bool Arith NArith Lia.
Import ListNotations.

Local Open Scope string_scope.
Local Open Scope list_scope.

Set Implicit Arguments.

(* ================================================================== *)
(** * Python string operations *)
(* ================================================================== *)

Module PyStr.

(** [c.isspace()] on the ASCII range: TAB, LF, VT, FF, CR, the four
    separators 0x1c..0x1f and the space. *)
Definition is_space (c : ascii) : bool :=
  let n := N_of_ascii c in
  ((9 <=? n) && (n <=? 13) || (28 <=? n) && (n <=? 32))%N.

Definition is_upper (c : ascii) : bool :=
  let n := N_of_ascii c in ((65 <=? n) && (n <=? 90))%N.

Definition lower_char (c : ascii) : ascii :=
  if is_upper c then ascii_of_N (N_of_ascii c + 32) else c.

(** [s.lower()] *)
Fixpoint lower (s : string) : string :=
  match s with
  | EmptyString => EmptyString
  | String c s' => String (lower_char c) (lower s')
  end.

(** [s.lstrip()] *)
Fixpoint lstrip (s : string) : string :=
  match s with
  | EmptyString => EmptyString
  | String c s' => if is_space c then lstrip s' else s
  end.

Definition is_empty (s : string) : bool :=
  match s with EmptyString => true | String _ _ => false end.

(** [s.rstrip()] *)
Fixpoint rstrip (s : string) : string :=
  match s with
  | EmptyString => EmptyString
  | String c s' =>
      let r := rstrip s' in
      if is_space c && is_empty r then EmptyString else String c r
  end.

(** [s.strip()] *)
Definition strip (s : string) : string := rstrip (lstrip s).

(** [s.split()]: the maximal runs of non-whitespace characters, in
    order.  A non-space character either starts a word of its own (the
    rest is empty or starts with whitespace) or extends the first word of
    the rest. *)
Fixpoint split (s : string) : list string :=
  match s with
  | EmptyString => []
  | String c s' =>
      if is_space c then split s'
      else match s' with
           | EmptyString => [String c EmptyString]
           | String d _ =>
               if is_space d then String c EmptyString :: split s'
               else match split s' with
                    | w :: ws => String c w :: ws
                    | [] => [String c EmptyString]
                    end
           end
  end.

(** [s.startswith(p)] *)
Definition startswith (s p : string) : bool := String.prefix p s.

(** [sub in s] for two strings *)
Fixpoint contains (s sub : string) : bool :=
  match s with
  | EmptyString => is_empty sub
  | String _ s' => startswith s sub || contains s' sub
  end.

(** [x in xs] for a list of strings *)
Definition mem (x : string) (xs : list string) : bool :=
  existsb (String.eqb x) xs.

(** [sep.join(xs)] *)
Definition join (sep : string) (xs : list string) : string :=
  String.concat sep xs.

(** The characters of a string as one-character strings: what indexing
    and iterating a [str] yield. *)
Fixpoint chars (s : string) : list string :=
  match s with
  | EmptyString => []
  | String c s' => String c EmptyString :: chars s'
  end.

(** Prop-level reading of [sub in s]. *)
Definition Substring (sub s : string) : Prop :=
  exists pre post, s = (pre ++ sub ++ post)%string.

End PyStr.

Import PyStr.

(* ================================================================== *)
(** * Data model *)
(* ================================================================== *)

(** A Spotify track object, restricted to the keys the program reads:
    [track['uri']], [track['name']], [track['album']['name']] and the
    [name] of every entry of [track['artists']]. *)
Record track := mkTrack {
  uri : string;
  name : string;
  album_name : string;
  artists : list string }.

(** The dictionaries built by [scrape_recommended_recordings]. *)
Record recording := mkRecording {
  artist : string;
  info : string;
  full_text : string }.

(** The dictionaries built by [scrape_top_100_standards]. *)
Record standard := mkStandard {
  title : string;
  url : string }.

(** An anchor element of the index page: its stripped text and its href. *)
Record link := mkLink {
  link_text : string;
  href : string }.

(** The three entries of [artist_patterns], in list order. *)
Inductive pattern := ArtistYear | ArtistInfo | BigBand.

Definition artist_patterns : list pattern := [ArtistYear; ArtistInfo; BigBand].

(** An element of the list returned by [re.findall]: a tuple of the capture
    groups when the pattern has several groups, the text of the group itself
    (a [str]) when the pattern has exactly one. *)
Inductive re_match :=
| MTuple (groups : list string)
| MStr (s : string).

Definition findall_result (groups : list string) : re_match :=
  match groups with
  | [g] => MStr g
  | _ => MTuple groups
  end.

(** [len(match)], [match[i]] and iteration see a tuple as its components
    and a [str] as its characters. *)
Definition items (m : re_match) : list string :=
  match m with
  | MTuple groups => groups
  | MStr s => chars s
  end.

(** Calls that reach outside the process. *)
Inductive event :=
| EvFetch (u : string)                       (* requests.get *)
| EvSearch (q : string)                      (* sp.search *)
| EvPrompt                                   (* input *)
| EvCreatePlaylist (playlist_name : string)  (* sp.user_playlist_create *)
| EvAppend (playlist_id : string) (track_uris : list string).
                                             (* sp.playlist_add_items *)

(** The collaborators.  [None] stands for a raised exception. *)
Record services (World : Type) := mkServices {
  (* requests.get + soup.find_all('a', href=...) on the index page *)
  http_find_links : string -> World -> option (list link) * World;
  (* requests.get + soup.get_text() on a detail page *)
  http_get_text : string -> World -> option string * World;
  (* the capture groups of the successive matches of a pattern *)
  re_groups : pattern -> string -> list (list string);
  (* results['tracks']['items'] of sp.search(q, type='track', limit=10) *)
  sp_search : string -> World -> option (list track) * World;
  (* playlist['id'] of sp.user_playlist_create *)
  sp_user_playlist_create : string -> World -> option string * World;
  sp_playlist_add_items : string -> list string -> World -> bool * World }.

(** Process state: the outside world, the lines still to be read from
    standard input, and the calls made so far (oldest first). *)
Record io (World : Type) := mkIO {
  world : World;
  stdin : list string;
  log : list event }.

(* ================================================================== *)
(** * State and exception monads *)
(* ================================================================== *)

Inductive result (A : Type) :=
| Ok (a : A)
| Raised.
Arguments Raised {A}.

Definition St (S A : Type) : Type := S -> A * S.
Definition M (S A : Type) : Type := St S (result A).

Definition ret {S A} (a : A) : St S A := fun s => (a, s).

Definition bind {S A B} (m : St S A) (k : A -> St S B) : St S B :=
  fun s => let (a, s') := m s in k a s'.

Definition mret {S A} (a : A) : M S A := ret (Ok a).

Definition raise {S A} : M S A := ret Raised.

Definition mbind {S A B} (m : M S A) (k : A -> M S B) : M S B :=
  bind m (fun r => match r with Ok a => k a | Raised => raise end).

(** [try: m  except Exception: h] *)
Definition try_except {S A} (m : M S A) (h : St S A) : St S A :=
  bind m (fun r => match r with Ok a => ret a | Raised => h end).

Definition lift {S A} (m : St S A) : M S A :=
  bind m (fun a => mret a).

Notation "x <- m ;; k" := (mbind m (fun x => k))
  (at level 61, m at next level, right associativity).
Notation "x <~ m ;; k" := (bind m (fun x => k))
  (at level 61, m at next level, right associativity).

(* ================================================================== *)
(** * Pure parts of the program *)
(* ================================================================== *)

Definition base_url : string := "https://www.jazzstandards.com".

Definition index_url : string := (base_url ++ "/compositions/index.htm")%string.

Definition default_playlist_name : string :=
  "Top 100 Jazz Standards - Recommended Recordings".

(** Body of the loop of [scrape_top_100_standards] (lines 58-63). *)
Definition standard_of_link (l : link) : standard :=
  {| title := link_text l;
     url := if negb (startswith (href l) "http")
            then (base_url ++ href l)%string else href l |}.

(** Lines 106-118: what one element of [matches] appends to
    [recordings]. *)
Definition normalize_match (m : re_match) : list recording :=
  let xs := items m in
  if (2 <=? List.length xs)%nat then
    [ {| artist := strip (nth 0 xs "");
         info := if (1 <? List.length xs)%nat
                 then strip (nth 1 xs "") else "";
         full_text := join " - " xs |} ]
  else if (List.length xs =? 1)%nat then
    [ {| artist := strip (nth 0 xs "");
         info := "";
         full_text := nth 0 xs "" |} ]
  else [].

(** Lines 121-127, the "Remove duplicates" loop; [seen] is the set. *)
Fixpoint unique_loop (seen : list string) (recordings : list recording)
  : list recording :=
  match recordings with
  | [] => []
  | r :: rest =>
      let key := lower (artist r) in
      if mem key seen then unique_loop seen rest
      else r :: unique_loop (key :: seen) rest
  end.

Definition unique_recordings (recordings : list recording) : list recording :=
  unique_loop [] recordings.

(** Line 176. *)
Definition artist_match (artist : string) (t : track) : bool :=
  existsb (fun artist_name =>
             contains artist_name (lower artist)
             || contains (lower artist) artist_name)
          (map lower (artists t)).

(** Line 177. *)
Definition title_match (standard_title : string) (t : track) : bool :=
  let track_name := lower (name t) in
  existsb (fun word => contains track_name word)
          (split (lower standard_title))
  || contains track_name (lower standard_title).

(** Line 179: the test of the first loop over the items (the strong
    match). *)
Definition strong_match (standard_title artist : string) (t : track) : bool :=
  artist_match artist t && title_match standard_title t.

(** Lines 191-193: the test of the second loop over the items. *)
Definition weak_match (standard_title artist : string) (t : track) : bool :=
  let track_name := lower (name t) in
  existsb (fun word => contains track_name word)
          (split (lower standard_title))
  && existsb (fun artist_name => contains artist_name (lower artist))
             (map lower (artists t)).

(** Lines 168-199: the three passes over a non-empty result list whose
    first element is [first]; the selected track and [is_strong_match]. *)
Definition select_match (standard_title artist : string) (first : track)
  (results : list track) : track * bool :=
  match find (strong_match standard_title artist) results with
  | Some t => (t, true)
  | None =>
      match find (weak_match standard_title artist) results with
      | Some t => (t, false)
      | None => (first, false)
      end
  end.

(** Lines 157-161. *)
Definition queries (standard_title artist recording_info : string)
  : list string :=
  [ (artist ++ " " ++ standard_title)%string;
    (artist ++ " " ++ recording_info)%string;
    (standard_title ++ " " ++ artist)%string ].

(** The three answers the prompt of line 216 understands. *)
Inductive decision := Accept | Reject | SkipAll.

(** The [while True] loop of lines 215-227 over the lines standard input
    still holds: the decision ([None] when [input] meets the end of the
    input and raises [EOFError]), the number of [input] calls made, and the
    lines left. *)
Fixpoint read_decision (lines : list string)
  : option decision * nat * list string :=
  match lines with
  | [] => (None, 1, [])
  | l :: rest =>
      let response := strip (lower l) in
      if mem response ["y"; "yes"]%string then (Some Accept, 1, rest)
      else if mem response ["n"; "no"]%string then (Some Reject, 1, rest)
      else if mem response ["s"; "skip"]%string then (Some SkipAll, 1, rest)
      else let '(d, n, rest') := read_decision rest in (d, S n, rest')
  end.

(** Line 301: [track_uri and track_uri not in all_track_uris], then the
    append of line 302. *)
Definition offer (track_uri : option string) (all_track_uris : list string)
  : list string :=
  match track_uri with
  | Some u =>
      if negb (is_empty u) && negb (mem u all_track_uris)
      then all_track_uris ++ [u]
      else all_track_uris
  | None => all_track_uris
  end.

Definition is_nil {A} (l : list A) : bool :=
  match l with [] => true | _ :: _ => false end.

(* ================================================================== *)
(** * The methods of [JazzStandardsSpotifyPlaylist] *)
(* ================================================================== *)

Section Program.

Variable World : Type.
Variable svc : services World.

Definition emit (e : event) (w : World) (s : io World) : io World :=
  {| world := w; stdin := stdin s; log := log s ++ [e] |}.

(** [requests.get(index)], [raise_for_status], [soup.find_all]. *)
Definition find_links (u : string) : M (io World) (list link) :=
  fun s =>
    let (r, w) := http_find_links svc u (world s) in
    (match r with Some ls => Ok ls | None => Raised end, emit (EvFetch u) w s).

(** [requests.get(standard_url)], [raise_for_status], [soup.get_text]. *)
Definition get_text (u : string) : M (io World) string :=
  fun s =>
    let (r, w) := http_get_text svc u (world s) in
    (match r with Some t => Ok t | None => Raised end, emit (EvFetch u) w s).

(** [re.findall(pattern, text_content)]. *)
Definition findall (p : pattern) (text_content : string) : list re_match :=
  map findall_result (re_groups svc p text_content).

(** [self.sp.search(q=query, type='track', limit=10)['tracks']['items']]. *)
Definition search (query : string) : M (io World) (list track) :=
  fun s =>
    let (r, w) := sp_search svc query (world s) in
    (match r with Some l => Ok l | None => Raised end, emit (EvSearch query) w s).

(** The prompt loop of lines 215-227. *)
Definition confirm : M (io World) decision :=
  fun s =>
    let '(d, n, rest) := read_decision (stdin s) in
    (match d with Some d => Ok d | None => Raised end,
     {| world := world s; stdin := rest; log := log s ++ repeat EvPrompt n |}).

(** [xs[0]], which raises [IndexError] on an empty list. *)
Definition index0 (xs : list string) : M (io World) string :=
  match xs with
  | [] => raise
  | x :: _ => mret x
  end.

(** [scrape_top_100_standards], lines 39-69. *)
Definition scrape_top_100_standards : St (io World) (list standard) :=
  try_except
    (standard_links <- find_links index_url ;;
     mret (map standard_of_link (firstn 100 standard_links)))
    (ret []).

(** Lines 104-118: the matches of the three patterns, normalised, in
    pattern order and, within a pattern, in document order. *)
Definition raw_recordings (text_content : string) : list recording :=
  flat_map (fun p => flat_map normalize_match (findall p text_content))
           artist_patterns.

(** [scrape_recommended_recordings], lines 71-137. *)
Definition scrape_recommended_recordings (standard_url : string)
  : St (io World) (list recording) :=
  try_except
    (text_content <- get_text standard_url ;;
     mret (firstn 6 (unique_recordings (raw_recordings text_content))))
    (ret []).

(** The [for query in queries] loop of [search_spotify_track], lines
    163-230. *)
Fixpoint query_loop (standard_title artist : string) (qs : list string)
  : M (io World) (option string) :=
  match qs with
  | [] => mret None
  | query :: rest =>
      results <- search query ;;
      match results with
      | [] => query_loop standard_title artist rest
      | first :: _ =>
          let '(best_match, is_strong_match) :=
            select_match standard_title artist first results in
          track_artist <- index0 (artists best_match) ;;
          if is_strong_match then mret (Some (uri best_match))
          else
            d <- confirm ;;
            match d with
            | Accept => mret (Some (uri best_match))
            | Reject => query_loop standard_title artist rest
            | SkipAll => mret None
            end
      end
  end.

(** [search_spotify_track], lines 139-234. *)
Definition search_spotify_track
  (standard_title artist recording_info : string)
  : St (io World) (option string) :=
  try_except
    (query_loop standard_title artist
                (queries standard_title artist recording_info))
    (ret None).

(** [create_playlist], lines 236-254. *)
Definition create_playlist (playlist_name : string) : M (io World) string :=
  fun s =>
    let (r, w) := sp_user_playlist_create svc playlist_name (world s) in
    (match r with Some id => Ok id | None => Raised end,
     emit (EvCreatePlaylist playlist_name) w s).

Definition playlist_add_items (playlist_id : string) (track_uris : list string)
  : M (io World) unit :=
  fun s =>
    let (ok, w) := sp_playlist_add_items svc playlist_id track_uris (world s) in
    (if ok then Ok tt else Raised, emit (EvAppend playlist_id track_uris) w s).

(** [add_tracks_to_playlist], lines 329-341. *)
Definition add_tracks_to_playlist (playlist_id : string)
  (track_uris : list string) : St (io World) unit :=
  try_except (playlist_add_items playlist_id track_uris) (ret tt).

(** The inner loop of [run], lines 293-305. *)
Fixpoint recordings_loop (standard_title : string)
  (recordings : list recording) (all_track_uris : list string)
  : St (io World) (list string) :=
  match recordings with
  | [] => ret all_track_uris
  | r :: rest =>
      track_uri <~ search_spotify_track standard_title (artist r) (info r) ;;
      recordings_loop standard_title rest (offer track_uri all_track_uris)
  end.

(** Lines 307-310. *)
Definition flush_batch (playlist_id : string) (all_track_uris : list string)
  : St (io World) (list string) :=
  if (50 <=? List.length all_track_uris)%nat then
    _ <~ add_tracks_to_playlist playlist_id (firstn 50 all_track_uris) ;;
    ret (skipn 50 all_track_uris)
  else ret all_track_uris.

(** The outer loop of [run], lines 278-310. *)
Fixpoint standards_loop (playlist_id : string) (standards : list standard)
  (all_track_uris : list string) : St (io World) (list string) :=
  match standards with
  | [] => ret all_track_uris
  | st :: rest =>
      recordings <~ scrape_recommended_recordings (url st) ;;
      if is_nil recordings then
        standards_loop playlist_id rest all_track_uris
      else
        all_track_uris <~ recordings_loop (title st) recordings
                                          all_track_uris ;;
        all_track_uris <~ flush_batch playlist_id all_track_uris ;;
        standards_loop playlist_id rest all_track_uris
  end.

(** Lines 312-314. *)
Definition flush_remainder (playlist_id : string)
  (all_track_uris : list string) : St (io World) unit :=
  if is_nil all_track_uris then ret tt
  else add_tracks_to_playlist playlist_id all_track_uris.

(** [run], lines 256-327. *)
Definition run : M (io World) unit :=
  standards <- lift scrape_top_100_standards ;;
  if is_nil standards then mret tt
  else
    playlist_id <- create_playlist default_playlist_name ;;
    lift (all_track_uris <~ standards_loop playlist_id standards [] ;;
          flush_remainder playlist_id all_track_uris).

End Program.

(* ================================================================== *)
(** * Vocabulary of the properties *)
(* ================================================================== *)

(** The answers of the catalog when the queries [qs] are issued one after
    the other starting from world [w]: [None] for a search that raises. *)
Fixpoint responses {World} (svc : services World) (qs : list string)
  (w : World) : list (option (list track)) :=
  match qs with
  | [] => []
  | q :: rest =>
      let (r, w') := sp_search svc q w in r :: responses svc rest w'
  end.

(** The result list of a query holds no candidate. *)
Definition no_candidates (r : option (list track)) : Prop :=
  r = None \/ r = Some [].

(** The ids submitted by the playlist-append calls of a log, in order. *)
Fixpoint appended (l : list event) : list string :=
  match l with
  | [] => []
  | EvAppend _ ids :: l' => ids ++ appended l'
  | _ :: l' => appended l'
  end.

(** A logged call respects the batch ceiling. *)
Definition within_ceiling (e : event) : Prop :=
  match e with
  | EvAppend _ ids => List.length ids <= 50
  | _ => True
  end.

(** From [s] to [s'] the log only grew, by calls satisfying [P]. *)
Definition grows {World} (P : event -> Prop) (s s' : io World) : Prop :=
  exists evs, log s' = log s ++ evs /\ Forall P evs.

(** The dedup key of a citation. *)
Definition artist_key (r : recording) : string := lower (artist r).

(** The first citation of [l] carrying the key [k]. *)
Definition first_with_key (k : string) (l : list recording)
  : option recording :=
  find (fun r => String.eqb (artist_key r) k) l.

(** ** The statements of the specification that the code departs from,
    written after the specification's words. *)

(** Tier-1 short circuit as the specification words it: a Tier-1 candidate
    in the list of query [k], none in the lists of the queries before it. *)
Definition spec_tier1_short_circuit {World} (svc : services World)
  (standard_title artist recording_info : string) (s : io World) : Prop :=
  let qs := queries standard_title artist recording_info in
  forall k results t,
    nth_error (responses svc qs (world s)) k = Some (Some results) ->
    (forall j results', j < k ->
       nth_error (responses svc qs (world s)) j = Some (Some results') ->
       find (strong_match standard_title artist) results' = None) ->
    find (strong_match standard_title artist) results = Some t ->
    let (r, s') :=
      search_spotify_track svc standard_title artist recording_info s in
    r = Some (uri t) /\
    log s' = log s ++ map EvSearch (firstn (S k) qs).

(** The title half of the Tier-1 test as the specification words it. *)
Definition spec_title_half (standard_title : string) (t : track) : Prop :=
  (forall word, In word (split (lower standard_title)) ->
                Substring word (lower (name t)))
  \/ Substring (lower standard_title) (lower (name t)).

(** Reject-and-continue as the specification words it: once the only
    candidate of a result list has been proposed and rejected, nothing
    remains in that list and the overall result is no match. *)
Definition spec_reject_and_continue {World} (svc : services World)
  (standard_title artist recording_info : string) (s : io World) : Prop :=
  forall p w' n lines,
    sp_search svc (artist ++ " " ++ standard_title)%string (world s)
      = (Some [p], w') ->
    strong_match standard_title artist p = false ->
    read_decision (stdin s) = (Some Reject, n, lines) ->
    fst (search_spotify_track svc standard_title artist recording_info s)
      = None.

(** The failure policy as the specification words it: a query whose search
    raises counts as empty and the next query is still issued. *)
Definition spec_error_as_empty {World} (svc : services World)
  (standard_title artist recording_info : string) (s : io World) : Prop :=
  forall w',
    sp_search svc (artist ++ " " ++ standard_title)%string (world s)
      = (None, w') ->
    In (EvSearch (artist ++ " " ++ recording_info)%string)
       (log (snd (search_spotify_track svc standard_title artist
                                       recording_info s))).

(** The buffer as the run stands after [k] works and [j] citations of the
    next one. *)
Definition buffer_at {World} (svc : services World) (playlist_id : string)
  (standards : list standard) (k j : nat) (s : io World) : list string :=
  let (all_track_uris, s1) :=
    standards_loop svc playlist_id (firstn k standards) [] s in
  match nth_error standards k with
  | None => all_track_uris
  | Some st =>
      let (recordings, s2) := scrape_recommended_recordings svc (url st) s1 in
      fst (recordings_loop svc (title st) (firstn j recordings)
                           all_track_uris s2)
  end.

(** The buffer invariant as the specification words it. *)
Definition spec_buffer_ceiling {World} (svc : services World)
  (playlist_id : string) (standards : list standard) (s : io World) : Prop :=
  forall k j, List.length (buffer_at svc playlist_id standards k j s) <= 50.

(** The citation of a match as the specification words it. *)
Definition spec_citation (groups : list string) : recording :=
  {| artist := nth 0 groups "";
     info := nth 1 groups "";
     full_text := join " - " groups |}.

(* ================================================================== *)
(** * Concrete worlds *)
(* ================================================================== *)

(** Services without state of their own, given by plain functions. *)
Definition stateless (links : option (list link))
  (page : string -> option string)
  (groups : pattern -> string -> list (list string))
  (catalog : string -> option (list track)) : services unit :=
  {| http_find_links := fun _ w => (links, w);
     http_get_text := fun u w => (page u, w);
     re_groups := groups;
     sp_search := fun q w => (catalog q, w);
     sp_user_playlist_create := fun _ w => (Some "playlist-1"%string, w);
     sp_playlist_add_items := fun _ _ w => (true, w) |}.

Definition start (lines : list string) : io unit :=
  {| world := tt; stdin := lines; log := [] |}.

Definition leaves : track :=
  {| uri := "spotify:track:leaves"; name := "Autumn Leaves";
     album_name := "Portrait in Jazz"; artists := ["Bill Evans"%string] |}.

Definition other_song : track :=
  {| uri := "spotify:track:other"; name := "Some Other Song";
     album_name := "Live"; artists := ["Bill Evans Trio"%string] |}.

Definition new_york : track :=
  {| uri := "spotify:track:newyork"; name := "Autumn in New York";
     album_name := "Trio"; artists := ["Bill Evans"%string] |}.

(** Query 1 finds only a weak candidate, query 2 finds a strong one. *)
Definition weak_then_strong (q : string) : option (list track) :=
  if String.eqb q "Bill Evans Autumn Leaves" then Some [other_song]
  else if String.eqb q "Bill Evans 1959" then Some [leaves]
  else Some [].

(** Query 1 finds nothing, query 2 finds a strong candidate. *)
Definition empty_then_strong (q : string) : option (list track) :=
  if String.eqb q "Bill Evans 1959" then Some [new_york; leaves]
  else Some [].

(** The search of query 1 raises, query 2 would find a strong candidate. *)
Definition error_then_strong (q : string) : option (list track) :=
  if String.eqb q "Bill Evans Autumn Leaves" then None
  else if String.eqb q "Bill Evans 1959" then Some [leaves]
  else Some [].

(** The search of query 1 raises, the other queries find nothing. *)
Definition error_then_empty (q : string) : option (list track) :=
  if String.eqb q "Bill Evans Autumn Leaves" then None else Some [].

(** A catalog that answers the three queries of "Autumn Leaves" by Bill
    Evans (1959) with [a1], [a2] and [a3]. *)
Definition scripted (a1 a2 a3 : option (list track)) (q : string)
  : option (list track) :=
  if String.eqb q "Bill Evans Autumn Leaves" then a1
  else if String.eqb q "Bill Evans 1959" then a2
  else a3.

Definition resolver_world (catalog : string -> option (list track))
  : services unit :=
  stateless None (fun _ => None) (fun _ _ => []) catalog.

(** A whole run: ten works, each page citing the same six artists. *)
Definition ten_links : list link :=
  map (fun p => {| link_text := fst p; href := snd p |})
    [ ("Body and Soul", "/compositions-0/bodyandsoul.htm");
      ("Summertime", "/compositions-0/summertime.htm");
      ("Lover Man", "/compositions-0/loverman.htm");
      ("Stardust", "/compositions-0/stardust.htm");
      ("Caravan", "/compositions-0/caravan.htm");
      ("Misty", "/compositions-0/misty.htm");
      ("Laura", "/compositions-0/laura.htm");
      ("Cherokee", "/compositions-0/cherokee.htm");
      ("Nardis", "/compositions-0/nardis.htm");
      ("Yesterdays", "/compositions-0/yesterdays.htm") ]%string.

Definition page_text : string :=
  "Coleman Hawkins (1939) Billie Holiday (1944) Art Tatum (1949) Chet Baker (1954) Sonny Rollins (1957) John Coltrane (1960)".

Definition page_groups (p : pattern) (text : string) : list (list string) :=
  match p with
  | ArtistYear =>
      [ ["Coleman Hawkins"; "1939"]; ["Billie Holiday"; "1944"];
        ["Art Tatum"; "1949"]; ["Chet Baker"; "1954"];
        ["Sonny Rollins"; "1957"]; ["John Coltrane"; "1960"] ]%string
  | _ => []
  end.

(** A page on which artists recur across the patterns. *)
Definition recurring_text : string :=
  "Miles Davis (1959) Bill Evans (1961) Miles Davis - Kind of Blue (1959) Duke Ellington - Live at Newport (1956) Duke Ellington and His Orchestra".

Definition recurring_groups (p : pattern) (text : string)
  : list (list string) :=
  match p with
  | ArtistYear => [ ["Miles Davis"; "1959"]; ["Bill Evans"; "1961"] ]%string
  | ArtistInfo => [ ["Miles Davis"; "Kind of Blue "];
                    ["Duke Ellington"; "Live at Newport "] ]%string
  | BigBand => [ ["Duke Ellington"%string] ]
  end.

Definition recurring_world : services unit :=
  stateless None (fun _ => Some recurring_text) recurring_groups
            (fun _ => Some []).

Definition medley : track :=
  {| uri := "spotify:track:medley"; name := "Body and Soul / Yesterdays";
     album_name := "Hawk"; artists := ["Coleman Hawkins"%string] |}.

(** Every query finds one track named after it, except that Coleman
    Hawkins's two standards are found on one medley track. *)
Definition run_catalog (q : string) : option (list track) :=
  if String.eqb q "Coleman Hawkins Body and Soul"
     || String.eqb q "Coleman Hawkins Yesterdays"
  then Some [medley]
  else Some [ {| uri := ("spotify:track:" ++ q)%string; name := q;
                 album_name := "Album"; artists := [q] |} ].

Definition run_world : services unit :=
  stateless (Some ten_links) (fun _ => Some page_text) page_groups run_catalog.

Definition ten_standards : list standard := map standard_of_link ten_links.

(* ================================================================== *)
(** * Further vocabulary and worlds *)
(* ================================================================== *)

(** The queries of the search calls of a log, in order. *)
Fixpoint searches_of (l : list event) : list string :=
  match l with
  | [] => []
  | EvSearch q :: l' => q :: searches_of l'
  | _ :: l' => searches_of l'
  end.

(** The addresses of the page fetches of a log, in order. *)
Fixpoint fetches_of (l : list event) : list string :=
  match l with
  | [] => []
  | EvFetch u :: l' => u :: fetches_of l'
  | _ :: l' => fetches_of l'
  end.

(** The calls a resolution may make: searches and prompts. *)
Definition resolver_event (e : event) : Prop :=
  match e with
  | EvSearch _ | EvPrompt => True
  | _ => False
  end.

(** The calls made while the works are processed: page fetches, searches,
    prompts, and append calls to the playlist [playlist_id] with 1 to 50
    pairwise distinct, non-empty ids. *)
Definition batch_ok (playlist_id : string) (e : event) : Prop :=
  match e with
  | EvAppend p ids =>
      p = playlist_id
      /\ 1 <= List.length ids <= 50
      /\ NoDup ids
      /\ ~ In EmptyString ids
  | EvCreatePlaylist _ => False
  | _ => True
  end.

(** Lines 217-223: a line the prompt takes as an answer. *)
Definition recognized (l : string) : bool :=
  let response := strip (lower l) in
  mem response ["y"; "yes"]%string
  || mem response ["n"; "no"]%string
  || mem response ["s"; "skip"]%string.

(** The ids accepted so far, in order: those submitted, then those still
    in the buffer. *)
Definition pipeline {World} (s : io World) (all_track_uris : list string)
  : list string :=
  appended (log s) ++ all_track_uris.

(** The outcome [out] of a resolution started in [s] over the queries
    [qs], of which the one at position [k] raises: at most the queries up
    to that one were issued, in order, and if that one was issued it was
    the last call and the outcome is [failure]. *)
Definition ends_at {World A} (failure : A) (qs : list string) (k : nat)
  (s : io World) (out : A * io World) : Prop :=
  exists evs j,
    log (snd out) = log s ++ evs
    /\ searches_of evs = firstn j qs
    /\ j <= S k
    /\ (j = S k ->
        fst out = failure
        /\ exists evs0 q,
             nth_error qs k = Some q /\ evs = evs0 ++ [EvSearch q]).

(** A candidate without artists. *)
Definition anonymous : track :=
  {| uri := "spotify:track:anon"; name := "Untitled";
     album_name := "Unknown"; artists := [] |}.

(** The ten-work world in which the playlist cannot be created. *)
Definition no_playlist_world : services unit :=
  {| http_find_links := http_find_links run_world;
     http_get_text := http_get_text run_world;
     re_groups := re_groups run_world;
     sp_search := sp_search run_world;
     sp_user_playlist_create := fun _ w => (None, w);
     sp_playlist_add_items := sp_playlist_add_items run_world |}.

(* ================================================================== *)
(** * Strings *)
(* ================================================================== *)

Example split_words :
  split (lower "  Autumn   Leaves ") = ["autumn"; "leaves"]%string.
Proof. reflexivity. Qed.

Example strip_blanks : strip "  Kind of Blue  " = "Kind of Blue"%string.
Proof. reflexivity. Qed.

Lemma startswith_spec (s p : string) :
  startswith s p = true <-> exists post, s = (p ++ post)%string.
Proof.
  unfold startswith. revert s.
  induction p as [|a p IH]; intros s.
  - destruct s; simpl; split; eauto.
  - destruct s as [|b s]; simpl.
    + split; [discriminate | intros [post H]; discriminate].
    + destruct (ascii_dec a b) as [->|Hab].
      * rewrite IH. split; intros [post H]; exists post.
        -- now rewrite H.
        -- now injection H.
      * split; [discriminate|].
        intros [post H]. injection H as H1 _. congruence.
Qed.

Lemma is_empty_spec (s : string) : is_empty s = true <-> s = EmptyString.
Proof. destruct s; simpl; split; congruence. Qed.

Lemma contains_spec (s sub : string) :
  contains s sub = true <-> Substring sub s.
Proof.
  unfold Substring.
  induction s as [|c s IH]; cbn [contains].
  - rewrite is_empty_spec. split.
    + intros ->. now exists EmptyString, EmptyString.
    + intros (pre & post & H).
      destruct pre; [|discriminate]. destruct sub; [reflexivity|discriminate].
  - rewrite orb_true_iff, startswith_spec, IH. split.
    + intros [[post H] | (pre & post & H)].
      * exists EmptyString, post. exact H.
      * exists (String c pre), post. simpl. now rewrite H.
    + intros (pre & post & H). destruct pre as [|c' pre]; simpl in H.
      * left. now exists post.
      * right. injection H as _ H. now exists pre, post.
Qed.

Lemma existsb_contains (hay : string) (words : list string) :
  existsb (fun word => contains hay word) words = true <->
  exists word, In word words /\ Substring word hay.
Proof.
  rewrite existsb_exists.
  split; intros (w & Hin & H); exists w; split; auto; now apply contains_spec.
Qed.

(** [rstrip] leaves alone a string whose last character is no blank. *)
Lemma rstrip_fixed (s : string) (c : ascii) :
  is_space c = false ->
  rstrip (s ++ String c EmptyString) = (s ++ String c EmptyString)%string.
Proof.
  intros Hc. induction s as [|a s IH]; simpl.
  - now rewrite Hc.
  - rewrite IH. destruct s; simpl; now rewrite andb_false_r.
Qed.

(** [strip] leaves alone a string that starts and ends with a non-blank
    character, as every text matched by the artist group does. *)
Lemma strip_fixed (a c : ascii) (s : string) :
  is_space a = false -> is_space c = false ->
  strip (String a (s ++ String c EmptyString))
    = String a (s ++ String c EmptyString).
Proof.
  intros Ha Hc. unfold strip. simpl lstrip. rewrite Ha.
  change (String a (s ++ String c EmptyString))
    with ((String a s) ++ String c EmptyString)%string.
  now apply rstrip_fixed.
Qed.

(** The words [split] returns are non-empty and free of whitespace. *)
Lemma split_words_clean (s : string) :
  Forall (fun w => w <> EmptyString
                   /\ existsb is_space (list_ascii_of_string w) = false)
         (split s).
Proof.
  induction s as [|c s IH]; cbn [split].
  - constructor.
  - destruct (is_space c) eqn:Hc; [exact IH|].
    assert (H1 : String c EmptyString <> EmptyString
                 /\ existsb is_space
                      (list_ascii_of_string (String c EmptyString)) = false).
    { split; [discriminate|]. cbn. now rewrite Hc. }
    destruct s as [|d s']; [now repeat constructor|].
    destruct (is_space d); [now constructor|].
    destruct (split (String d s')) as [|w ws]; [now repeat constructor|].
    inversion IH as [|? ? [Hw1 Hw2] Hws]; subst.
    constructor; [|assumption].
    split; [discriminate|]. cbn [list_ascii_of_string existsb].
    now rewrite Hc, Hw2.
Qed.

(* ================================================================== *)
(** * The Tier-1 title test (C3) *)
(* ================================================================== *)

(** C3, as the code has it: the title half of the strong-match test holds
    exactly when AT LEAST ONE whitespace-delimited word of the lower-cased
    work title occurs in the lower-cased track name, or the whole
    lower-cased title does. *)
Theorem title_match_any_word (standard_title : string) (t : track) :
  title_match standard_title t = true <->
  (exists word, In word (split (lower standard_title))
                /\ Substring word (lower (name t)))
  \/ Substring (lower standard_title) (lower (name t)).
Proof.
  unfold title_match.
  now rewrite orb_true_iff, existsb_contains, contains_spec.
Qed.

(** C3, as the specification words it ("every word"), fails: one word of
    "Autumn Leaves" occurs in "Autumn in New York", the code's test holds,
    and yet neither every word nor the whole title occurs. *)
Lemma title_match_every_word_fails :
  ~ (title_match "Autumn Leaves" new_york = true
     <-> spec_title_half "Autumn Leaves" new_york).
Proof.
  intros [H _]. specialize (H eq_refl). destruct H as [H | H].
  - specialize (H "leaves"%string (or_intror (or_introl eq_refl))).
    apply contains_spec in H. vm_compute in H. discriminate.
  - apply contains_spec in H. vm_compute in H. discriminate.
Qed.

(* ================================================================== *)
(** * Citation extraction (C9, C8) *)
(* ================================================================== *)

(** C9, as the code has it, for the matches of the two patterns with two
    capture groups: [artist] and [info] are the two groups with the
    surrounding whitespace stripped, [full_text] joins the groups as they
    were matched; stripping changes nothing in a group that starts and ends
    with a non-blank character, which the artist group always does. *)
Theorem two_group_match_normalized (g1 g2 : string) :
  normalize_match (findall_result [g1; g2])
    = [ {| artist := strip g1; info := strip g2;
           full_text := (g1 ++ " - " ++ g2)%string |} ]
  /\ forall a c body, is_space a = false -> is_space c = false ->
       g1 = String a (body ++ String c EmptyString) -> strip g1 = g1.
Proof.
  split.
  - reflexivity.
  - intros a c body Ha Hc ->. now apply strip_fixed.
Qed.

Lemma two_group_match_normalized_witness :
  normalize_match (findall_result ["Miles Davis"; "Kind of Blue "]%string)
    = [ {| artist := "Miles Davis"; info := "Kind of Blue";
           full_text := "Miles Davis - Kind of Blue " |} ]
  /\ strip "Miles Davis" = "Miles Davis"%string.
Proof.
  destruct (two_group_match_normalized "Miles Davis" "Kind of Blue ")
    as [H1 H2].
  split.
  - exact H1.
  - apply (H2 "M"%char "s"%char "iles Davi"%string);
      [reflexivity | reflexivity | reflexivity].
Defined.

(** C9, as the specification words it, fails on a match of the
    "Artist - Info" pattern whose second group ends with a blank: [info] is
    the stripped group, not the group. *)
Lemma info_is_not_the_raw_group :
  normalize_match (findall_result ["Miles Davis"; "Kind of Blue "]%string)
    <> [ spec_citation ["Miles Davis"; "Kind of Blue "]%string ].
Proof. vm_compute. discriminate. Qed.

(** A match of the one-group "and His Orchestra" pattern reaches the loop
    as a [str]; [len], indexing and [join] then work on its characters, and
    the branch written for one group (lines 113-118) is not the one
    taken. *)
Lemma one_group_match_read_by_character :
  normalize_match (findall_result ["Duke Ellington"%string])
    = [ {| artist := "D"; info := "u";
           full_text :=
             "D - u - k - e -   - E - l - l - i - n - g - t - o - n" |} ].
Proof. reflexivity. Qed.

Lemma NoDup_firstn {A} (n : nat) (l : list A) :
  NoDup l -> NoDup (firstn n l).
Proof.
  intros H. rewrite <- (firstn_skipn n l) in H.
  now apply NoDup_app_remove_r in H.
Qed.

Lemma In_firstn {A} (n : nat) (l : list A) (x : A) :
  In x (firstn n l) -> In x l.
Proof.
  intros H. rewrite <- (firstn_skipn n l). apply in_or_app. now left.
Qed.

Lemma mem_spec (x : string) (xs : list string) :
  mem x xs = true <-> In x xs.
Proof.
  unfold mem. rewrite existsb_exists. split.
  - intros (y & Hin & Heq). apply String.eqb_eq in Heq. now subst.
  - intros Hin. exists x. split; [assumption | apply String.eqb_refl].
Qed.

Lemma mem_false (x : string) (xs : list string) :
  mem x xs = false <-> ~ In x xs.
Proof.
  rewrite <- mem_spec. destruct (mem x xs); split; congruence.
Qed.

(** The loop keeps a citation only if its key was not seen before, and
    then it is the first citation of the input with that key. *)
Lemma unique_loop_first (recordings : list recording) :
  forall seen r,
    In r (unique_loop seen recordings) ->
    ~ In (artist_key r) seen /\
    first_with_key (artist_key r) recordings = Some r.
Proof.
  unfold first_with_key.
  induction recordings as [|x rest IH]; intros seen r Hin; simpl in *.
  - contradiction.
  - fold (artist_key x) in *.
    destruct (mem (artist_key x) seen) eqn:Hm.
    + destruct (IH _ _ Hin) as [Hns Hf]. split; [assumption|].
      apply mem_spec in Hm.
      destruct (String.eqb_spec (artist_key x) (artist_key r)) as [E|E].
      * rewrite E in Hm. contradiction.
      * exact Hf.
    + apply mem_false in Hm. destruct Hin as [-> | Hin].
      * split; [assumption|]. now rewrite String.eqb_refl.
      * destruct (IH _ _ Hin) as [Hns Hf]. split.
        -- intros H. apply Hns. now right.
        -- destruct (String.eqb_spec (artist_key x) (artist_key r)) as [E|E].
           ++ exfalso. apply Hns. now left.
           ++ exact Hf.
Qed.

Lemma unique_loop_NoDup (recordings : list recording) :
  forall seen, NoDup (map artist_key (unique_loop seen recordings)).
Proof.
  induction recordings as [|x rest IH]; intros seen; simpl.
  - constructor.
  - fold (artist_key x). destruct (mem (artist_key x) seen).
    + apply IH.
    + simpl. constructor; [|apply IH].
      intros Hin. apply in_map_iff in Hin. destruct Hin as (r & Hk & Hr).
      apply unique_loop_first in Hr. destruct Hr as [Hns _].
      apply Hns. left. now symmetry.
Qed.

(** What [scrape_recommended_recordings] returns: nothing when the fetch
    raises, the first six unique citations otherwise. *)
Lemma scrape_recommended_recordings_eq {World} (svc : services World)
  (u : string) (s : io World) :
  scrape_recommended_recordings svc u s =
  let (r, w) := http_get_text svc u (world s) in
  (match r with
   | Some text => firstn 6 (unique_recordings (raw_recordings svc text))
   | None => []
   end, emit (EvFetch u) w s).
Proof.
  unfold scrape_recommended_recordings, try_except, mbind, bind, get_text.
  destruct (http_get_text svc u (world s)) as [[text|] w]; reflexivity.
Qed.

(** C8: the extractor returns at most six citations, no two of them with
    the same lower-cased artist, and each of them is the first raw match
    (in pattern order, then document order) carrying its artist. *)
Theorem citations_unique_and_capped {World} (svc : services World)
  (u : string) (s : io World) :
  let recordings := fst (scrape_recommended_recordings svc u s) in
  List.length recordings <= 6
  /\ NoDup (map artist_key recordings)
  /\ forall text w, http_get_text svc u (world s) = (Some text, w) ->
       forall r, In r recordings ->
         first_with_key (artist_key r) (raw_recordings svc text) = Some r.
Proof.
  rewrite scrape_recommended_recordings_eq.
  destruct (http_get_text svc u (world s)) as [[text|] w]; cbn [fst].
  - split; [apply firstn_le_length|]. split.
    + rewrite <- firstn_map. apply NoDup_firstn, unique_loop_NoDup.
    + intros text' w' E r Hin. injection E as <- _.
      apply In_firstn in Hin.
      now apply (unique_loop_first _ []).
  - split; [simpl; lia|]. split; [constructor|]. intros _ _ _ r [].
Qed.

Lemma citations_unique_and_capped_witness :
  let recordings :=
    fst (scrape_recommended_recordings recurring_world "page" (start [])) in
  map artist recordings
    = ["Miles Davis"; "Bill Evans"; "Duke Ellington"; "D"]%string
  /\ List.length recordings <= 6
  /\ NoDup (map artist_key recordings)
  /\ forall r, In r recordings ->
       first_with_key (artist_key r)
         (raw_recordings recurring_world recurring_text) = Some r.
Proof.
  destruct (citations_unique_and_capped recurring_world "page" (start []))
    as (H1 & H2 & H3).
  split; [reflexivity|]. split; [exact H1|]. split; [exact H2|].
  intros r Hin. exact (H3 recurring_text tt eq_refl r Hin).
Defined.

(* ================================================================== *)
(** * Catalog resolution (C1, C4, C5) *)
(* ================================================================== *)

Unset Implicit Arguments.

Section Resolver.

Context {World : Type} (svc : services World).
Variables standard_title artist : string.

(** One turn of the query loop, case by case. *)
Lemma query_loop_cons (q : string) (rest : list string) (s : io World) :
  query_loop svc standard_title artist (q :: rest) s =
  let (r, w) := sp_search svc q (world s) in
  let s1 := emit (EvSearch q) w s in
  match r with
  | None => (Raised, s1)
  | Some [] => query_loop svc standard_title artist rest s1
  | Some (first :: tl) =>
      let '(best_match, is_strong_match) :=
        select_match standard_title artist first (first :: tl) in
      match artists best_match with
      | [] => (Raised, s1)
      | _ :: _ =>
          if is_strong_match then (Ok (Some (uri best_match)), s1)
          else
            let '(d, n, lines) := read_decision (stdin s) in
            let s2 := {| world := w; stdin := lines;
                         log := log s1 ++ repeat EvPrompt n |} in
            match d with
            | None => (Raised, s2)
            | Some Accept => (Ok (Some (uri best_match)), s2)
            | Some Reject => query_loop svc standard_title artist rest s2
            | Some SkipAll => (Ok None, s2)
            end
      end
  end.
Proof.
  cbn [query_loop]. unfold mbind at 1. unfold bind at 1. unfold search.
  destruct (sp_search svc q (world s)) as [[[|first tl]|] w]; cbn zeta;
    try reflexivity.
  destruct (select_match standard_title artist first (first :: tl))
    as [best_match is_strong_match].
  unfold mbind at 1. unfold bind at 1.
  destruct (artists best_match) as [|a l]; [reflexivity|].
  cbn [index0 mret ret].
  destruct is_strong_match; [reflexivity|].
  unfold mbind, bind, confirm. cbn [stdin emit world log].
  destruct (read_decision (stdin s)) as [[[[| |]|] n] lines]; reflexivity.
Qed.

Lemma strong_match_has_artist (t : track) :
  strong_match standard_title artist t = true -> artists t <> [].
Proof.
  unfold strong_match, artist_match. intros H E. rewrite E in H.
  discriminate.
Qed.

Lemma select_match_strong (first : track) (results : list track) (t : track) :
  find (strong_match standard_title artist) results = Some t ->
  select_match standard_title artist first results = (t, true).
Proof. unfold select_match. now intros ->. Qed.

Lemma select_match_not_strong (first : track) (results : list track) :
  find (strong_match standard_title artist) results = None ->
  snd (select_match standard_title artist first results) = false.
Proof.
  unfold select_match. intros ->.
  now destruct (find (weak_match standard_title artist) results).
Qed.

(** Empty answers are stepped over until a list with a strong match is
    met; that one ends the loop. *)
Lemma query_loop_short_circuit (qs : list string) :
  forall (s : io World) (k : nat) (results : list track) (t : track),
    nth_error (responses svc qs (world s)) k = Some (Some results) ->
    (forall j, j < k ->
       nth_error (responses svc qs (world s)) j = Some (Some [])) ->
    find (strong_match standard_title artist) results = Some t ->
    exists w,
      query_loop svc standard_title artist qs s =
      (Ok (Some (uri t)),
       {| world := w; stdin := stdin s;
          log := log s ++ map EvSearch (firstn (S k) qs) |}).
Proof.
  induction qs as [|q rest IH]; intros s k results t Hk Hbefore Hfind.
  - destruct k; discriminate.
  - rewrite query_loop_cons. cbn [responses] in Hk, Hbefore.
    destruct (sp_search svc q (world s)) as [r w]. destruct k as [|k].
    + cbn in Hk. injection Hk as ->.
      destruct results as [|first tl]; [discriminate|].
      rewrite (select_match_strong first _ _ Hfind).
      pose proof (find_some _ _ Hfind) as [_ Hs].
      apply strong_match_has_artist in Hs.
      destruct (artists t); [contradiction|].
      exists w. reflexivity.
    + pose proof (Hbefore 0 ltac:(lia)) as H0. cbn in H0.
      injection H0 as ->. cbn zeta.
      destruct (IH (emit (EvSearch q) w s) k results t) as [w' E].
      * exact Hk.
      * intros j Hj. apply (Hbefore (S j)). lia.
      * exact Hfind.
      * exists w'. rewrite E. cbn [emit stdin log world].
        rewrite <- app_assoc. reflexivity.
Qed.

(** A search that raises ends the loop at once. *)
Lemma query_loop_raises (q : string) (rest : list string) (s : io World)
  (w : World) :
  sp_search svc q (world s) = (None, w) ->
  query_loop svc standard_title artist (q :: rest) s
    = (Raised, emit (EvSearch q) w s).
Proof. intros E. rewrite query_loop_cons, E. reflexivity. Qed.

(** Queries that raise or find nothing never produce a track. *)
Lemma query_loop_no_candidates (qs : list string) :
  forall s : io World,
    (forall r, In r (responses svc qs (world s)) -> no_candidates r) ->
    exists s',
      query_loop svc standard_title artist qs s = (Ok None, s')
      \/ query_loop svc standard_title artist qs s = (Raised, s').
Proof.
  induction qs as [|q rest IH]; intros s H.
  - exists s. now left.
  - rewrite query_loop_cons. cbn [responses] in H.
    destruct (sp_search svc q (world s)) as [r w].
    destruct (H r (or_introl eq_refl)) as [-> | ->].
    + eexists. right. reflexivity.
    + apply (IH (emit (EvSearch q) w s)).
      intros r Hr. apply H. now right.
Qed.

End Resolver.

(** C1, as the code has it: when every query before the k-th is answered
    with zero candidates and the k-th answer holds a candidate passing the
    strong-match test, the resolver returns the first such candidate of
    that answer, reads nothing from standard input (no prompt) and issues
    exactly the first k queries; with k = 2, query 3 is never issued. *)
Theorem tier1_short_circuit {World} (svc : services World)
  (standard_title artist recording_info : string) (s : io World)
  (k : nat) (results : list track) (t : track) :
  let qs := queries standard_title artist recording_info in
  nth_error (responses svc qs (world s)) k = Some (Some results) ->
  (forall j, j < k ->
     nth_error (responses svc qs (world s)) j = Some (Some [])) ->
  find (strong_match standard_title artist) results = Some t ->
  let (r, s') :=
    search_spotify_track svc standard_title artist recording_info s in
  r = Some (uri t)
  /\ stdin s' = stdin s
  /\ log s' = log s ++ map EvSearch (firstn (S k) qs).
Proof.
  intros qs Hk Hbefore Hfind.
  destruct (query_loop_short_circuit svc standard_title artist qs s k
              results t Hk Hbefore Hfind) as [w E].
  unfold search_spotify_track, try_except, bind. fold qs. rewrite E.
  cbn. auto.
Qed.

Lemma tier1_short_circuit_witness :
  search_spotify_track (resolver_world empty_then_strong)
    "Autumn Leaves" "Bill Evans" "1959" (start ["y"%string])
  = (Some "spotify:track:newyork"%string,
     {| world := tt; stdin := ["y"%string];
        log := [EvSearch "Bill Evans Autumn Leaves";
                EvSearch "Bill Evans 1959"] |}).
Proof.
  pose proof (@tier1_short_circuit unit (resolver_world empty_then_strong)
                "Autumn Leaves" "Bill Evans" "1959" (start ["y"%string])
                1 [new_york; leaves] new_york) as H.
  cbv zeta in H.
  specialize (H eq_refl).
  assert (Hbefore : forall j, j < 1 ->
            nth_error (responses (resolver_world empty_then_strong)
                         (queries "Autumn Leaves" "Bill Evans" "1959")
                         (world (start ["y"%string]))) j = Some (Some [])).
  { intros j Hj. destruct j; [reflexivity | lia]. }
  specialize (H Hbefore eq_refl).
  destruct (search_spotify_track (resolver_world empty_then_strong)
              "Autumn Leaves" "Bill Evans" "1959" (start ["y"%string]))
    as [r [w i l]].
  destruct H as (-> & H2 & H3). cbn in H2, H3. subst. destruct w.
  reflexivity.
Defined.

(** C1, as the specification words it, fails: query 1 is answered with a
    weak candidate only, query 2 with a strong one; the resolver prompts for
    the weak candidate and, on "y", returns it without issuing query 2. *)
Lemma tier1_short_circuit_as_worded_fails :
  ~ spec_tier1_short_circuit (resolver_world weak_then_strong)
      "Autumn Leaves" "Bill Evans" "1959" (start ["y"%string]).
Proof.
  intros H. specialize (H 1 [leaves] leaves eq_refl).
  assert (Hbefore : forall j results', j < 1 ->
            nth_error (responses (resolver_world weak_then_strong)
                         (queries "Autumn Leaves" "Bill Evans" "1959")
                         (world (start ["y"%string]))) j
              = Some (Some results') ->
            find (strong_match "Autumn Leaves" "Bill Evans") results'
              = None).
  { intros j results' Hj E. destruct j; [|lia].
    vm_compute in E. injection E as <-. reflexivity. }
  specialize (H Hbefore eq_refl). vm_compute in H.
  destruct H as [H _]. discriminate.
Qed.

(** C4, as the code has it: when a proposal that is no strong match is
    rejected, the resolver leaves that query's result list and goes on with
    the next query of the fixed order, from the state the prompt left; when
    the rejected proposal came from the last query the result is no
    match. *)
Theorem reject_moves_to_next_query {World} (svc : services World)
  (standard_title artist q : string) (rest : list string) (s : io World)
  (first : track) (tl : list track) (w : World) (p : track)
  (n : nat) (lines : list string) :
  sp_search svc q (world s) = (Some (first :: tl), w) ->
  select_match standard_title artist first (first :: tl) = (p, false) ->
  artists p <> [] ->
  read_decision (stdin s) = (Some Reject, n, lines) ->
  let s' := {| world := w; stdin := lines;
               log := (log s ++ [EvSearch q]) ++ repeat EvPrompt n |} in
  query_loop svc standard_title artist (q :: rest) s
    = query_loop svc standard_title artist rest s'
  /\ query_loop svc standard_title artist [q] s = (Ok None, s').
Proof.
  intros Hsearch Hsel Hart Hread s'.
  rewrite !query_loop_cons, Hsearch, Hsel.
  destruct (artists p); [contradiction|].
  rewrite Hread. split; reflexivity.
Qed.

Lemma reject_moves_to_next_query_witness :
  let W := resolver_world weak_then_strong in
  let s' := {| world := tt; stdin := [];
               log := [EvSearch "Bill Evans Autumn Leaves";
                       EvPrompt; EvPrompt] |} in
  query_loop W "Autumn Leaves" "Bill Evans"
             (queries "Autumn Leaves" "Bill Evans" "1959")
             (start ["maybe"; " No "]%string)
    = query_loop W "Autumn Leaves" "Bill Evans"
                 ["Bill Evans 1959"; "Autumn Leaves Bill Evans"]%string s'
  /\ query_loop W "Autumn Leaves" "Bill Evans"
                ["Bill Evans Autumn Leaves"%string]
                (start ["maybe"; " No "]%string)
     = (Ok None, s').
Proof.
  intros W s'.
  apply (reject_moves_to_next_query W "Autumn Leaves" "Bill Evans"
           "Bill Evans Autumn Leaves"
           ["Bill Evans 1959"; "Autumn Leaves Bill Evans"]%string
           (start ["maybe"; " No "]%string)
           other_song [] tt other_song 2 []).
  - reflexivity.
  - reflexivity.
  - discriminate.
  - reflexivity.
Defined.

(** C4, as the specification words it, fails: the only candidate of query
    1 is rejected, nothing remains in that list, and the result is still a
    match, the strong candidate of query 2. *)
Lemma reject_as_worded_fails :
  ~ spec_reject_and_continue (resolver_world weak_then_strong)
      "Autumn Leaves" "Bill Evans" "1959" (start ["n"%string]).
Proof.
  intros H.
  specialize (H other_song tt 1 [] eq_refl eq_refl eq_refl).
  vm_compute in H. discriminate.
Qed.

(** C5, as the specification words it, fails: the search of query 1
    raises and query 2 is never issued, although it would have found a
    strong match. *)
Lemma error_as_empty_fails :
  ~ spec_error_as_empty (resolver_world error_then_strong)
      "Autumn Leaves" "Bill Evans" "1959" (start []).
Proof.
  intros H. specialize (H tt eq_refl). vm_compute in H.
  destruct H as [H | []]. discriminate.
Qed.

(* ================================================================== *)
(** * Playlist assembly (C6, C7, C2, C10) *)
(* ================================================================== *)

Section Assembler.

Context {World : Type} (svc : services World).

Lemma grows_refl (P : event -> Prop) (s : io World) : grows P s s.
Proof. exists []. split; [now rewrite app_nil_r | constructor]. Qed.

Lemma grows_trans (P : event -> Prop) (s1 s2 s3 : io World) :
  grows P s1 s2 -> grows P s2 s3 -> grows P s1 s3.
Proof.
  intros (e1 & E1 & F1) (e2 & E2 & F2). exists (e1 ++ e2). split.
  - now rewrite E2, E1, app_assoc.
  - apply Forall_app. now split.
Qed.

Lemma grows_emit (P : event -> Prop) (e : event) (w : World) (s : io World) :
  P e -> grows P s (emit e w s).
Proof. intros H. exists [e]. split; [reflexivity | now constructor]. Qed.

Lemma grows_prompts (s : io World) (w : World) (lines : list string)
  (n : nat) :
  grows within_ceiling s
    {| world := w; stdin := lines; log := log s ++ repeat EvPrompt n |}.
Proof.
  exists (repeat EvPrompt n). split; [reflexivity|].
  apply Forall_forall. intros e He. apply repeat_spec in He. now subst.
Qed.

(** The resolver makes no playlist call. *)
Lemma query_loop_grows (standard_title artist : string) (qs : list string) :
  forall s : io World,
    grows within_ceiling s (snd (query_loop svc standard_title artist qs s)).
Proof.
  induction qs as [|q rest IH]; intros s.
  - apply grows_refl.
  - rewrite query_loop_cons.
    destruct (sp_search svc q (world s)) as [r w].
    assert (H1 : grows within_ceiling s (emit (EvSearch q) w s))
      by now apply grows_emit.
    destruct r as [[|first tl]|]; cbn zeta.
    + eapply grows_trans; [exact H1 | apply IH].
    + destruct (select_match standard_title artist first (first :: tl))
        as [best_match is_strong_match].
      destruct (artists best_match); [exact H1|].
      destruct is_strong_match; [exact H1|].
      destruct (read_decision (stdin s)) as [[d n] lines].
      assert (H2 : grows within_ceiling s
                     {| world := w; stdin := lines;
                        log := log (emit (EvSearch q) w s)
                               ++ repeat EvPrompt n |}).
      { eapply grows_trans; [exact H1|].
        apply (grows_prompts (emit (EvSearch q) w s)). }
      destruct d as [[| |]|]; try exact H2.
      eapply grows_trans; [exact H2 | apply IH].
    + exact H1.
Qed.

Lemma search_spotify_track_grows (standard_title artist recording_info : string)
  (s : io World) :
  grows within_ceiling s
    (snd (search_spotify_track svc standard_title artist recording_info s)).
Proof.
  unfold search_spotify_track, try_except, bind.
  pose proof (query_loop_grows standard_title artist
                (queries standard_title artist recording_info) s) as H.
  destruct (query_loop svc standard_title artist
              (queries standard_title artist recording_info) s)
    as [[r|] s']; exact H.
Qed.

Lemma scrape_recommended_recordings_bound (u : string) (s : io World) :
  List.length (fst (scrape_recommended_recordings svc u s)) <= 6
  /\ grows within_ceiling s (snd (scrape_recommended_recordings svc u s)).
Proof.
  rewrite scrape_recommended_recordings_eq.
  destruct (http_get_text svc u (world s)) as [[text|] w]; cbn [fst snd].
  - split; [apply firstn_le_length | now apply grows_emit].
  - split; [simpl; lia | now apply grows_emit].
Qed.

(** What [add_tracks_to_playlist] does: one append call, whatever its
    outcome. *)
Lemma add_tracks_to_playlist_eq (playlist_id : string)
  (track_uris : list string) (s : io World) :
  add_tracks_to_playlist svc playlist_id track_uris s =
  (tt, emit (EvAppend playlist_id track_uris)
            (snd (sp_playlist_add_items svc playlist_id track_uris (world s)))
            s).
Proof.
  unfold add_tracks_to_playlist, try_except, bind, playlist_add_items.
  destruct (sp_playlist_add_items svc playlist_id track_uris (world s))
    as [[|] w]; reflexivity.
Qed.

Lemma offer_length (track_uri : option string) (all_track_uris : list string) :
  List.length all_track_uris <= List.length (offer track_uri all_track_uris)
  /\ List.length (offer track_uri all_track_uris)
     <= S (List.length all_track_uris).
Proof.
  unfold offer. destruct track_uri as [u|]; [|lia].
  destruct (negb (is_empty u) && negb (mem u all_track_uris)).
  - rewrite length_app. simpl. lia.
  - lia.
Qed.

Lemma recordings_loop_cons (standard_title : string) (r : recording)
  (rest : list recording) (all_track_uris : list string) (s : io World) :
  recordings_loop svc standard_title (r :: rest) all_track_uris s =
  let (track_uri, s1) :=
    search_spotify_track svc standard_title (artist r) (info r) s in
  recordings_loop svc standard_title rest (offer track_uri all_track_uris) s1.
Proof. reflexivity. Qed.

Lemma standards_loop_cons (playlist_id : string) (st : standard)
  (rest : list standard) (all_track_uris : list string) (s : io World) :
  standards_loop svc playlist_id (st :: rest) all_track_uris s =
  let (recordings, s1) := scrape_recommended_recordings svc (url st) s in
  if is_nil recordings then
    standards_loop svc playlist_id rest all_track_uris s1
  else
    let (all1, s2) :=
      recordings_loop svc (title st) recordings all_track_uris s1 in
    let (all2, s3) := flush_batch svc playlist_id all1 s2 in
    standards_loop svc playlist_id rest all2 s3.
Proof.
  cbn [standards_loop]. unfold bind at 1.
  destruct (scrape_recommended_recordings svc (url st) s) as [recordings s1].
  destruct (is_nil recordings); [reflexivity|].
  unfold bind at 1.
  destruct (recordings_loop svc (title st) recordings all_track_uris s1)
    as [all1 s2].
  reflexivity.
Qed.

(** The inner loop adds at most one id per citation. *)
Lemma recordings_loop_bound (standard_title : string)
  (recordings : list recording) :
  forall (all_track_uris : list string) (s : io World),
    let r := recordings_loop svc standard_title recordings all_track_uris s in
    List.length all_track_uris <= List.length (fst r)
    /\ List.length (fst r)
       <= List.length all_track_uris + List.length recordings
    /\ grows within_ceiling s (snd r).
Proof.
  induction recordings as [|x rest IH]; intros all_track_uris s.
  - cbn. split; [lia|]. split; [lia | apply grows_refl].
  - rewrite recordings_loop_cons.
    pose proof (search_spotify_track_grows standard_title (artist x)
                  (info x) s) as Hg.
    destruct (search_spotify_track svc standard_title (artist x) (info x) s)
      as [track_uri s1]. cbn [snd] in Hg.
    specialize (IH (offer track_uri all_track_uris) s1).
    cbv zeta in IH |- *.
    destruct (recordings_loop svc standard_title rest
                (offer track_uri all_track_uris) s1) as [all' s2].
    cbn [fst snd] in IH |- *.
    destruct IH as (H1 & H2 & H3).
    pose proof (offer_length track_uri all_track_uris) as [Ho1 Ho2].
    cbn [List.length]. split; [lia|]. split; [lia|].
    eapply grows_trans; eassumption.
Qed.

(** The flush check: below the ceiling nothing happens; from 50 to 99 ids
    one call submits the first 50 and fewer than 50 stay behind. *)
Lemma flush_batch_bound (playlist_id : string) (all_track_uris : list string)
  (s : io World) :
  List.length all_track_uris < 100 ->
  List.length (fst (flush_batch svc playlist_id all_track_uris s)) < 50
  /\ grows within_ceiling s
       (snd (flush_batch svc playlist_id all_track_uris s)).
Proof.
  intros Hlen. unfold flush_batch.
  destruct (Nat.leb_spec 50 (List.length all_track_uris)) as [Hge | Hlt].
  - unfold bind. rewrite add_tracks_to_playlist_eq. cbn [fst snd ret].
    split.
    + rewrite length_skipn. lia.
    + apply grows_emit. unfold within_ceiling. apply firstn_le_length.
  - cbn. split; [lia | apply grows_refl].
Qed.

(** The outer loop keeps the buffer below the ceiling from one work to the
    next, and none of its append calls exceeds the ceiling. *)
Lemma standards_loop_bound (playlist_id : string) (standards : list standard) :
  forall (all_track_uris : list string) (s : io World),
    List.length all_track_uris < 50 ->
    List.length
      (fst (standards_loop svc playlist_id standards all_track_uris s)) < 50
    /\ grows within_ceiling s
         (snd (standards_loop svc playlist_id standards all_track_uris s)).
Proof.
  induction standards as [|st rest IH]; intros all_track_uris s Hlen.
  - cbn. split; [assumption | apply grows_refl].
  - rewrite standards_loop_cons.
    pose proof (scrape_recommended_recordings_bound (url st) s) as [Hr Hg1].
    destruct (scrape_recommended_recordings svc (url st) s)
      as [recordings s1]. cbn [fst snd] in Hr, Hg1.
    destruct (is_nil recordings).
    + destruct (IH all_track_uris s1 Hlen) as [H1 H2].
      split; [assumption | eapply grows_trans; eassumption].
    + pose proof (recordings_loop_bound (title st) recordings
                    all_track_uris s1) as Hb.
      cbv zeta in Hb.
      destruct (recordings_loop svc (title st) recordings all_track_uris s1)
        as [all1 s2]. cbn [fst snd] in Hb. destruct Hb as (_ & Hb & Hg2).
      pose proof (flush_batch_bound playlist_id all1 s2 ltac:(lia))
        as [Hf Hg3].
      destruct (flush_batch svc playlist_id all1 s2) as [all2 s3].
      cbn [fst snd] in Hf, Hg3.
      destruct (IH all2 s3 Hf) as [H1 H2].
      split; [assumption|].
      eapply grows_trans; [exact Hg1|].
      eapply grows_trans; [exact Hg2|].
      eapply grows_trans; eassumption.
Qed.

(** Running the outer loop over a prefix of the works gives the state in
    which the loop over all of them reaches the next work. *)
Lemma standards_loop_app (playlist_id : string) (pre post : list standard) :
  forall (all_track_uris : list string) (s : io World),
    standards_loop svc playlist_id (pre ++ post) all_track_uris s =
    let (all', s') := standards_loop svc playlist_id pre all_track_uris s in
    standards_loop svc playlist_id post all' s'.
Proof.
  induction pre as [|st pre IH]; intros all_track_uris s.
  - reflexivity.
  - cbn [app]. rewrite !standards_loop_cons.
    destruct (scrape_recommended_recordings svc (url st) s)
      as [recordings s1].
    destruct (is_nil recordings).
    + apply IH.
    + destruct (recordings_loop svc (title st) recordings all_track_uris s1)
        as [all1 s2].
      destruct (flush_batch svc playlist_id all1 s2) as [all2 s3].
      apply IH.
Qed.

(** Likewise for the inner loop and a prefix of the citations. *)
Lemma recordings_loop_app (standard_title : string)
  (pre post : list recording) :
  forall (all_track_uris : list string) (s : io World),
    recordings_loop svc standard_title (pre ++ post) all_track_uris s =
    let (all', s') :=
      recordings_loop svc standard_title pre all_track_uris s in
    recordings_loop svc standard_title post all' s'.
Proof.
  induction pre as [|r pre IH]; intros all_track_uris s.
  - reflexivity.
  - cbn [app]. rewrite !recordings_loop_cons.
    destruct (search_spotify_track svc standard_title (artist r) (info r) s)
      as [track_uri s1].
    apply IH.
Qed.

Lemma scrape_top_100_standards_eq (s : io World) :
  scrape_top_100_standards svc s =
  let (r, w) := http_find_links svc index_url (world s) in
  (match r with
   | Some standard_links => map standard_of_link (firstn 100 standard_links)
   | None => []
   end, emit (EvFetch index_url) w s).
Proof.
  unfold scrape_top_100_standards, try_except, mbind, bind, find_links.
  destruct (http_find_links svc index_url (world s)) as [[ls|] w];
    reflexivity.
Qed.

Lemma run_grows (s : io World) : grows within_ceiling s (snd (run svc s)).
Proof.
  unfold run, mbind, lift. unfold bind at 1 2.
  rewrite scrape_top_100_standards_eq.
  destruct (http_find_links svc index_url (world s)) as [r w].
  set (s1 := emit (EvFetch index_url) w s).
  assert (H1 : grows within_ceiling s s1) by now apply grows_emit.
  cbn [mret ret].
  destruct (is_nil _); [exact H1|].
  unfold bind at 1. unfold create_playlist.
  destruct (sp_user_playlist_create svc default_playlist_name (world s1))
    as [[playlist_id|] w2].
  - set (s2 := emit (EvCreatePlaylist default_playlist_name) w2 s1).
    assert (H2 : grows within_ceiling s1 s2) by now apply grows_emit.
    unfold bind at 1 2.
    match goal with
    | |- context [standards_loop svc playlist_id ?l [] s2] =>
        pose proof (standards_loop_bound playlist_id l [] s2
                      ltac:(simpl; lia)) as [Hlen H3];
        destruct (standards_loop svc playlist_id l [] s2) as [all s3]
    end.
    cbn [fst snd] in Hlen, H3.
    unfold flush_remainder.
    assert (H4 : grows within_ceiling s s3).
    { eapply grows_trans; [exact H1|].
      eapply grows_trans; eassumption. }
    destruct (is_nil all); cbn [ret mret snd]; [exact H4|].
    rewrite add_tracks_to_playlist_eq. cbn [snd].
    eapply grows_trans; [exact H4|].
    apply grows_emit. unfold within_ceiling. lia.
  - cbn [raise ret snd].
    eapply grows_trans; [exact H1 | now apply grows_emit].
Qed.

End Assembler.

(** C6, as the code has it: the flush check runs once per work, after all
    of the work's citations.  The buffer holds fewer than 50 ids when a
    work starts, grows by at most one id per citation of that work, of
    which there are at most 6, and so never holds more than 55 ids. *)
Theorem buffer_bounded {World} (svc : services World) (playlist_id : string)
  (standards : list standard) (s : io World) (k j : nat) :
  List.length (buffer_at svc playlist_id standards k 0 s) < 50
  /\ List.length (buffer_at svc playlist_id standards k j s)
     <= List.length (buffer_at svc playlist_id standards k 0 s) + Nat.min j 6
  /\ List.length (buffer_at svc playlist_id standards k j s) <= 55.
Proof.
  unfold buffer_at.
  pose proof (standards_loop_bound svc playlist_id (firstn k standards) [] s
                ltac:(simpl; lia)) as [Hlen _].
  destruct (standards_loop svc playlist_id (firstn k standards) [] s)
    as [all s1]. cbn [fst] in Hlen.
  destruct (nth_error standards k) as [st|].
  - pose proof (scrape_recommended_recordings_bound svc (url st) s1)
      as [Hr _].
    destruct (scrape_recommended_recordings svc (url st) s1)
      as [recordings s2]. cbn [fst] in Hr.
    pose proof (recordings_loop_bound svc (title st) (firstn j recordings)
                  all s2) as Hb.
    cbv zeta in Hb. destruct Hb as (_ & Hb & _).
    rewrite length_firstn in Hb.
    change (firstn 0 recordings) with (@nil recording).
    cbn [recordings_loop ret fst]. lia.
  - lia.
Qed.

(** C6, as the specification words it, fails: in the ten-work run the
    buffer holds 48 ids after eight works and 51 after the third citation
    of the ninth, before any flush. *)
Lemma buffer_exceeds_ceiling :
  ~ spec_buffer_ceiling run_world "playlist-1" ten_standards (start []).
Proof.
  intros H. specialize (H 8 3). vm_compute in H. lia.
Qed.

(** C7: no playlist-append call of a run submits more than 50 ids; and
    the flush check applied to a buffer of 73 ids makes one call with
    exactly the first 50 and leaves exactly the other 23. *)
Theorem append_calls_within_ceiling {World} (svc : services World)
  (s : io World) :
  (Forall within_ceiling (log s) ->
   Forall within_ceiling (log (snd (run svc s))))
  /\ forall playlist_id all_track_uris,
       List.length all_track_uris = 73 ->
       let (rest, s') := flush_batch svc playlist_id all_track_uris s in
       log s' = log s ++ [EvAppend playlist_id (firstn 50 all_track_uris)]
       /\ List.length (firstn 50 all_track_uris) = 50
       /\ rest = skipn 50 all_track_uris
       /\ List.length rest = 23.
Proof.
  split.
  - intros H. destruct (run_grows svc s) as (evs & E & F).
    rewrite E. apply Forall_app. now split.
  - intros playlist_id all_track_uris Hlen. unfold flush_batch.
    rewrite Hlen. cbn [Nat.leb]. unfold bind.
    rewrite add_tracks_to_playlist_eq. cbn [ret emit log].
    split; [reflexivity|]. split; [|split; [reflexivity|]].
    + rewrite length_firstn. lia.
    + rewrite length_skipn. lia.
Qed.

Lemma append_calls_within_ceiling_witness :
  Forall within_ceiling (log (snd (run run_world (start []))))
  /\ let (rest, s') :=
       flush_batch run_world "playlist-1" (repeat "id"%string 73) (start []) in
     log s' = [EvAppend "playlist-1" (repeat "id"%string 50)]
     /\ rest = repeat "id"%string 23.
Proof.
  destruct (append_calls_within_ceiling run_world (start [])) as [H1 H2].
  split.
  - apply H1. constructor.
  - specialize (H2 "playlist-1"%string (repeat "id"%string 73) eq_refl).
    destruct (flush_batch run_world "playlist-1" (repeat "id"%string 73)
                (start [])) as [rest s'].
    destruct H2 as (E1 & _ & E2 & _). split.
    + rewrite E1. reflexivity.
    + rewrite E2. reflexivity.
Defined.

(** C2 on the ten-work run: the medley track is submitted in the batch of
    50 flushed after the ninth work and again in the final batch, because
    the duplicate test of line 301 looks only at what the buffer still
    holds. *)
Theorem flushed_track_added_again :
  let l := log (snd (run run_world (start []))) in
  count_occ string_dec (appended l) "spotify:track:medley"%string = 2
  /\ List.length (appended l) = 60.
Proof. vm_compute. split; reflexivity. Qed.

(** C10: when the harvester returns no work, [run] returns at once in the
    state the harvester left: the only outside call made is the fetch of
    the index page, so no playlist is created, no search issued and no
    track appended. *)
Theorem no_standards_no_playlist {World} (svc : services World)
  (s : io World) :
  fst (scrape_top_100_standards svc s) = [] ->
  run svc s = (Ok tt, snd (scrape_top_100_standards svc s))
  /\ log (snd (run svc s)) = log s ++ [EvFetch index_url].
Proof.
  intros H.
  assert (E : run svc s = (Ok tt, snd (scrape_top_100_standards svc s))).
  { unfold run, mbind, lift. unfold bind at 1 2.
    destruct (scrape_top_100_standards svc s) as [standards s1].
    cbn [fst] in H. subst standards. reflexivity. }
  split; [exact E|]. rewrite E. cbn [snd].
  rewrite scrape_top_100_standards_eq.
  destruct (http_find_links svc index_url (world s)) as [r w]. reflexivity.
Qed.

Lemma no_standards_no_playlist_witness :
  run (resolver_world weak_then_strong) (start [])
    = (Ok tt, {| world := tt; stdin := [];
                 log := [EvFetch index_url] |}).
Proof.
  destruct (no_standards_no_playlist (resolver_world weak_then_strong)
              (start []) eq_refl) as [E _].
  rewrite E. reflexivity.
Defined.

(* ================================================================== *)
(** * Further properties: the harvester *)
(* ================================================================== *)

(** X1: the harvester returns at most 100 works, titled by the first 100
    links of the index page in document order; a failed fetch gives no
    work; either way the only outside call is the fetch of the index page
    and standard input is left alone. *)
Theorem harvest_first_hundred {World} (svc : services World) (s : io World) :
  let r := scrape_top_100_standards svc s in
  List.length (fst r) <= 100
  /\ log (snd r) = log s ++ [EvFetch index_url]
  /\ stdin (snd r) = stdin s
  /\ (forall links w,
        http_find_links svc index_url (world s) = (Some links, w) ->
        map title (fst r) = firstn 100 (map link_text links))
  /\ (forall w,
        http_find_links svc index_url (world s) = (None, w) -> fst r = []).
Proof.
  rewrite scrape_top_100_standards_eq.
  destruct (http_find_links svc index_url (world s)) as [[links|] w];
    cbn [fst snd emit log stdin].
  - split; [rewrite length_map; apply firstn_le_length|].
    split; [reflexivity|]. split; [reflexivity|]. split.
    + intros links' w' E. injection E as <- _.
      rewrite map_map, firstn_map. reflexivity.
    + intros w' E. discriminate.
  - split; [simpl; lia|]. split; [reflexivity|]. split; [reflexivity|].
    split; [intros links' w' E; discriminate | reflexivity].
Qed.

Lemma harvest_first_hundred_witness :
  map title (fst (scrape_top_100_standards run_world (start [])))
    = firstn 100 (map link_text ten_links)
  /\ fst (scrape_top_100_standards (resolver_world weak_then_strong)
            (start [])) = [].
Proof.
  split.
  - destruct (harvest_first_hundred run_world (start []))
      as (_ & _ & _ & H & _).
    exact (H ten_links tt eq_refl).
  - destruct (harvest_first_hundred (resolver_world weak_then_strong)
                (start [])) as (_ & _ & _ & _ & H).
    exact (H tt eq_refl).
Defined.

(** X2: every work the harvester returns has an address that starts with
    "http": a link target that does not is prefixed with the site's base
    address, one that does is kept as it is. *)
Theorem harvest_urls_absolute {World} (svc : services World) (s : io World) :
  Forall (fun st => startswith (url st) "http" = true)
         (fst (scrape_top_100_standards svc s))
  /\ forall l : link,
       url (standard_of_link l) = href l
       \/ url (standard_of_link l) = (base_url ++ href l)%string
          /\ startswith (href l) "http" = false.
Proof.
  split.
  - rewrite scrape_top_100_standards_eq.
    destruct (http_find_links svc index_url (world s)) as [[links|] w];
      cbn [fst]; [|constructor].
    apply Forall_forall. intros st Hin.
    apply in_map_iff in Hin. destruct Hin as (l & <- & _).
    unfold standard_of_link. cbn [url].
    destruct (startswith (href l) "http") eqn:E; cbn [negb].
    + exact E.
    + reflexivity.
  - intros l. unfold standard_of_link. cbn [url].
    destruct (startswith (href l) "http"); cbn [negb]; auto.
Qed.

(* ================================================================== *)
(** * Further properties: the extractor *)
(* ================================================================== *)

Lemma strip_one_character (c : ascii) :
  strip (String c EmptyString)
    = if is_space c then EmptyString else String c EmptyString.
Proof.
  unfold strip. cbn [lstrip]. destruct (is_space c) eqn:E.
  - reflexivity.
  - cbn. now rewrite E.
Qed.

(** X3: a match of a one-group pattern never yields the matched artist:
    whatever the group, the citation's [artist] and [info] have at most one
    character each. *)
Theorem one_group_match_loses_artist (g : string) (r : recording) :
  In r (normalize_match (findall_result [g])) ->
  String.length (artist r) <= 1 /\ String.length (info r) <= 1.
Proof.
  destruct g as [|c1 [|c2 g]]; cbn [findall_result].
  - intros [].
  - intros [<- | []]. cbn [artist info nth items chars].
    rewrite strip_one_character. destruct (is_space c1); cbn; lia.
  - unfold normalize_match. cbn [items chars List.length Nat.leb Nat.ltb].
    intros [<- | []]. cbn [artist info nth].
    rewrite !strip_one_character.
    destruct (is_space c1), (is_space c2); cbn; lia.
Qed.

Lemma one_group_match_loses_artist_witness :
  String.length
    (artist {| artist := "D"; info := "u";
               full_text :=
                 "D - u - k - e -   - E - l - l - i - n - g - t - o - n" |})
    <= 1.
Proof.
  apply (one_group_match_loses_artist "Duke Ellington").
  left. reflexivity.
Defined.

Lemma unique_loop_complete (recordings : list recording) :
  forall seen r,
    In r recordings ->
    In (artist_key r) seen
    \/ exists r', In r' (unique_loop seen recordings)
                  /\ artist_key r' = artist_key r.
Proof.
  induction recordings as [|x rest IH]; intros seen r Hin.
  - contradiction.
  - cbn [unique_loop]. fold (artist_key x).
    destruct (mem (artist_key x) seen) eqn:Hm.
    + destruct Hin as [-> | Hin].
      * left. now apply mem_spec.
      * apply IH. exact Hin.
    + destruct Hin as [-> | Hin].
      * right. exists r. split; [now left | reflexivity].
      * destruct (IH (artist_key x :: seen) r Hin) as [[E | Hs] | (r' & H1 & H2)].
        -- right. exists x. split; [now left | exact E].
        -- now left.
        -- right. exists r'. split; [now right | exact H2].
Qed.

(** X4: removing duplicates loses no artist: every raw match has a
    citation with its lower-cased artist among the unique ones, and when
    there are at most six unique ones the extractor returns all of
    them. *)
Theorem no_artist_lost {World} (svc : services World) (u : string)
  (s : io World) (text : string) (w : World) :
  http_get_text svc u (world s) = (Some text, w) ->
  (forall r, In r (raw_recordings svc text) ->
     exists r', In r' (unique_recordings (raw_recordings svc text))
                /\ artist_key r' = artist_key r)
  /\ (List.length (unique_recordings (raw_recordings svc text)) <= 6 ->
      fst (scrape_recommended_recordings svc u s)
        = unique_recordings (raw_recordings svc text)).
Proof.
  intros E. split.
  - intros r Hin.
    destruct (unique_loop_complete _ [] r Hin) as [[] | H]. exact H.
  - intros Hlen. rewrite scrape_recommended_recordings_eq, E. cbn [fst].
    apply firstn_all2. exact Hlen.
Qed.

Lemma no_artist_lost_witness :
  fst (scrape_recommended_recordings recurring_world "page" (start []))
    = unique_recordings (raw_recordings recurring_world recurring_text).
Proof.
  destruct (no_artist_lost recurring_world "page" (start [])
              recurring_text tt eq_refl) as [_ H].
  apply H. vm_compute. lia.
Defined.

Lemma unique_loop_fixed (recordings : list recording) :
  forall seen,
    NoDup (map artist_key recordings) ->
    (forall r, In r recordings -> ~ In (artist_key r) seen) ->
    unique_loop seen recordings = recordings.
Proof.
  induction recordings as [|x rest IH]; intros seen Hnd Hseen.
  - reflexivity.
  - cbn [unique_loop]. fold (artist_key x).
    cbn [map] in Hnd. inversion Hnd as [|? ? Hx Hrest]; subst.
    assert (Hm : mem (artist_key x) seen = false).
    { apply mem_false. apply Hseen. now left. }
    rewrite Hm. f_equal. apply IH; [exact Hrest|].
    intros r Hr [E | Hs].
    + apply Hx. rewrite E. now apply in_map.
    + apply (Hseen r); [now right | exact Hs].
Qed.

(** X5: removing duplicates is idempotent, and a list whose lower-cased
    artists are pairwise distinct is returned as it is, in its order. *)
Theorem unique_recordings_idempotent (recordings : list recording) :
  unique_recordings (unique_recordings recordings)
    = unique_recordings recordings
  /\ (NoDup (map artist_key recordings) ->
      unique_recordings recordings = recordings).
Proof.
  assert (H : forall l, NoDup (map artist_key l) -> unique_recordings l = l).
  { intros l Hl. apply unique_loop_fixed; [exact Hl | intros r _ []]. }
  split; [|apply H].
  apply H. apply unique_loop_NoDup.
Qed.

Lemma unique_recordings_idempotent_witness :
  unique_recordings
    [ {| artist := "Miles Davis"; info := "1959"; full_text := "a" |};
      {| artist := "Bill Evans"; info := "1961"; full_text := "b" |} ]
  = [ {| artist := "Miles Davis"; info := "1959"; full_text := "a" |};
      {| artist := "Bill Evans"; info := "1961"; full_text := "b" |} ].
Proof.
  apply unique_recordings_idempotent.
  vm_compute. repeat constructor; simpl; intuition discriminate.
Defined.

(* ================================================================== *)
(** * Further properties: the match tests *)
(* ================================================================== *)

Lemma append_empty_r (s : string) : (s ++ EmptyString)%string = s.
Proof. induction s as [|c s IH]; cbn; [reflexivity | now rewrite IH]. Qed.

Lemma contains_refl (s : string) : contains s s = true.
Proof.
  apply contains_spec. exists EmptyString, EmptyString.
  cbn. now rewrite append_empty_r.
Qed.

Lemma contains_empty (s : string) : contains s EmptyString = true.
Proof. apply contains_spec. now exists EmptyString, s. Qed.

Lemma lower_char_idempotent (c : ascii) :
  lower_char (lower_char c) = lower_char c.
Proof.
  destruct c as [[|] [|] [|] [|] [|] [|] [|] [|]]; reflexivity.
Qed.

Lemma lower_idempotent (s : string) : lower (lower s) = lower s.
Proof.
  induction s as [|c s IH]; cbn; [reflexivity|].
  now rewrite lower_char_idempotent, IH.
Qed.

Lemma select_match_first (standard_title artist : string) :
  (forall t, weak_match standard_title artist t = true ->
             strong_match standard_title artist t = true)
  /\ forall first results,
       find (strong_match standard_title artist) results = None ->
       select_match standard_title artist first results = (first, false).
Proof.
  assert (H : forall t, weak_match standard_title artist t = true ->
                        strong_match standard_title artist t = true).
  { intros t. unfold weak_match, strong_match, artist_match, title_match.
    rewrite !andb_true_iff. intros [Ht Ha]. split.
    - apply existsb_exists in Ha. destruct Ha as (an & Hin & Hc).
      apply existsb_exists. exists an. split; [exact Hin|].
      now rewrite Hc.
    - now rewrite Ht. }
  split; [exact H|].
  intros first results Hnone. unfold select_match. rewrite Hnone.
  destruct (find (weak_match standard_title artist) results) as [t|] eqn:E;
    [|reflexivity].
  apply find_some in E. destruct E as [Hin Hw].
  apply H in Hw. rewrite (find_none _ _ Hnone t Hin) in Hw. discriminate.
Qed.

(** X6: the second pass over a result list (lines 185-195) can select
    nothing: every candidate passing its test passes the strong-match test
    of the first pass.  So when a list holds no strong match, the track
    proposed is always its first element. *)
Theorem second_pass_selects_nothing (standard_title artist : string) :
  (forall t, weak_match standard_title artist t = true ->
             strong_match standard_title artist t = true)
  /\ forall first results,
       find (strong_match standard_title artist) results = None ->
       select_match standard_title artist first results = (first, false).
Proof. exact (select_match_first standard_title artist). Qed.

Lemma second_pass_selects_nothing_witness :
  select_match "Autumn Leaves" "Bill Evans" other_song [other_song; anonymous]
    = (other_song, false).
Proof.
  apply (second_pass_selects_nothing "Autumn Leaves" "Bill Evans").
  reflexivity.
Defined.

(** X7: a candidate whose track name is the work title and one of whose
    artists is the cited artist, letter case apart, is a strong match. *)
Theorem exact_hit_is_strong (standard_title artist : string) (t : track)
  (a : string) :
  lower (name t) = lower standard_title ->
  In a (artists t) ->
  lower a = lower artist ->
  strong_match standard_title artist t = true.
Proof.
  intros Hn Hin Ha. unfold strong_match, artist_match, title_match.
  apply andb_true_iff. split.
  - apply existsb_exists. exists (lower a). split.
    + now apply in_map.
    + rewrite Ha, contains_refl. reflexivity.
  - rewrite Hn, contains_refl. apply orb_true_r.
Qed.

Lemma exact_hit_is_strong_witness :
  strong_match "AUTUMN leaves" "bill evans" leaves = true.
Proof.
  apply (exact_hit_is_strong "AUTUMN leaves" "bill evans" leaves
           "Bill Evans").
  - reflexivity.
  - left. reflexivity.
  - reflexivity.
Defined.

(** X8: an empty work title passes the title test against every track, so
    the strong-match test then rests on the artist alone; with an empty
    cited artist as well, every track that has an artist is a strong
    match. *)
Theorem empty_title_matches_everything (artist : string) (t : track) :
  title_match "" t = true
  /\ strong_match "" artist t = artist_match artist t
  /\ (artists t <> [] -> strong_match "" "" t = true).
Proof.
  assert (H : title_match "" t = true).
  { unfold title_match. cbn [lower split existsb orb].
    apply contains_empty. }
  split; [exact H|]. split.
  - unfold strong_match. rewrite H. apply andb_true_r.
  - intros Hart. unfold strong_match. rewrite H, andb_true_r.
    unfold artist_match. destruct (artists t) as [|a l]; [contradiction|].
    cbn [map existsb lower]. now rewrite contains_empty.
Qed.

Lemma empty_title_matches_everything_witness :
  strong_match "" "" other_song = true.
Proof.
  apply (empty_title_matches_everything "" other_song). discriminate.
Defined.

(** X9: the two match tests ignore letter case, on the side of the
    citation and on the side of the candidate. *)
Theorem matching_ignores_case (standard_title artist : string) (t : track) :
  let t' := {| uri := uri t; name := lower (name t);
               album_name := album_name t;
               artists := map lower (artists t) |} in
  strong_match (lower standard_title) (lower artist) t'
    = strong_match standard_title artist t
  /\ weak_match (lower standard_title) (lower artist) t'
     = weak_match standard_title artist t.
Proof.
  unfold strong_match, weak_match, artist_match, title_match.
  cbn [name artists]. rewrite map_map.
  rewrite !lower_idempotent.
  rewrite (map_ext (fun x => lower (lower x)) lower lower_idempotent).
  split; reflexivity.
Qed.

(* ================================================================== *)
(** * Further properties: the resolver *)
(* ================================================================== *)

Lemma searches_of_app (l1 l2 : list event) :
  searches_of (l1 ++ l2) = searches_of l1 ++ searches_of l2.
Proof.
  induction l1 as [|e l1 IH]; [reflexivity|].
  destruct e; cbn; now rewrite IH.
Qed.

Lemma searches_of_prompts (n : nat) : searches_of (repeat EvPrompt n) = [].
Proof. induction n; [reflexivity | exact IHn]. Qed.

Lemma prompts_are_resolver_events (n : nat) :
  Forall resolver_event (repeat EvPrompt n).
Proof.
  apply Forall_forall. intros e He. apply repeat_spec in He. now subst.
Qed.

(** The calls of the query loop: searches and prompts only, the searches
    being the first [k] queries in order. *)
Lemma query_loop_calls {World} (svc : services World)
  (standard_title artist : string) (qs : list string) :
  forall s : io World,
    exists evs k,
      log (snd (query_loop svc standard_title artist qs s)) = log s ++ evs
      /\ Forall resolver_event evs
      /\ searches_of evs = firstn k qs
      /\ k <= List.length qs
      /\ (qs <> [] -> 1 <= k).
Proof.
  induction qs as [|q rest IH]; intros s.
  - exists [], 0. cbn. rewrite app_nil_r.
    repeat split; auto. congruence.
  - rewrite query_loop_cons.
    destruct (sp_search svc q (world s)) as [r w].
    assert (Stop : forall n lines,
              exists evs k,
                log {| world := w; stdin := lines;
                       log := log (emit (EvSearch q) w s)
                              ++ repeat EvPrompt n |} = log s ++ evs
                /\ Forall resolver_event evs
                /\ searches_of evs = firstn k (q :: rest)
                /\ k <= List.length (q :: rest)
                /\ (q :: rest <> [] -> 1 <= k)).
    { intros n lines. exists (EvSearch q :: repeat EvPrompt n), 1.
      cbn [log emit]. rewrite <- app_assoc. split; [reflexivity|].
      split; [constructor; [exact I | apply prompts_are_resolver_events]|].
      split; [cbn; now rewrite searches_of_prompts|].
      cbn. split; lia. }
    assert (Stop0 : exists evs k,
              log (emit (EvSearch q) w s) = log s ++ evs
              /\ Forall resolver_event evs
              /\ searches_of evs = firstn k (q :: rest)
              /\ k <= List.length (q :: rest)
              /\ (q :: rest <> [] -> 1 <= k)).
    { destruct (Stop 0 (stdin s)) as (evs & k & H). exists evs, k.
      cbn [log repeat] in H. rewrite app_nil_r in H. exact H. }
    assert (Go : forall n lines,
              exists evs k,
                log (snd (query_loop svc standard_title artist rest
                       {| world := w; stdin := lines;
                          log := log (emit (EvSearch q) w s)
                                 ++ repeat EvPrompt n |})) = log s ++ evs
                /\ Forall resolver_event evs
                /\ searches_of evs = firstn k (q :: rest)
                /\ k <= List.length (q :: rest)
                /\ (q :: rest <> [] -> 1 <= k)).
    { intros n lines.
      destruct (IH {| world := w; stdin := lines;
                      log := log (emit (EvSearch q) w s)
                             ++ repeat EvPrompt n |})
        as (evs & k & E & F & S1 & Hk & _).
      exists ((EvSearch q :: repeat EvPrompt n) ++ evs), (S k).
      rewrite E. cbn [log emit]. rewrite <- !app_assoc.
      split; [reflexivity|]. split.
      - apply Forall_app. split; [|exact F].
        constructor; [exact I | apply prompts_are_resolver_events].
      - split.
        + cbn [app searches_of firstn]. rewrite searches_of_app,
            searches_of_prompts, S1. reflexivity.
        + cbn. split; lia. }
    destruct r as [[|first tl]|]; cbn zeta.
    + destruct (Go 0 (stdin s)) as (evs & k & H). exists evs, k.
      cbn [repeat] in H. rewrite app_nil_r in H.
      destruct s as [w0 i0 l0]. exact H.
    + destruct (select_match standard_title artist first (first :: tl))
        as [best_match is_strong_match].
      destruct (artists best_match); [exact Stop0|].
      destruct is_strong_match; [exact Stop0|].
      destruct (read_decision (stdin s)) as [[d n] lines].
      destruct d as [[| |]|]; cbn [snd]; auto.
    + exact Stop0.
Qed.

(** X10: a resolution makes no other outside call than searches and
    prompts, and its searches are the first one, two or three of the three
    queries, in their fixed order. *)
Theorem resolver_queries_in_order {World} (svc : services World)
  (standard_title artist recording_info : string) (s : io World) :
  let s' :=
    snd (search_spotify_track svc standard_title artist recording_info s) in
  exists evs k,
    log s' = log s ++ evs
    /\ Forall resolver_event evs
    /\ searches_of evs
       = firstn k (queries standard_title artist recording_info)
    /\ 1 <= k <= 3.
Proof.
  destruct (query_loop_calls svc standard_title artist
              (queries standard_title artist recording_info) s)
    as (evs & k & E & F & S1 & Hk & H1).
  exists evs, k.
  unfold search_spotify_track, try_except, bind.
  destruct (query_loop svc standard_title artist
              (queries standard_title artist recording_info) s)
    as [[r|] s1]; cbn [snd ret] in *;
    (split; [exact E|]; split; [exact F|]; split; [exact S1|];
     split; [apply H1; discriminate | exact Hk]).
Qed.

Lemma select_match_in (standard_title artist : string) (first : track)
  (results : list track) :
  In first results ->
  In (fst (select_match standard_title artist first results)) results.
Proof.
  intros Hin. unfold select_match.
  destruct (find (strong_match standard_title artist) results) as [t|] eqn:E.
  - apply find_some in E. tauto.
  - destruct (find (weak_match standard_title artist) results) as [t|] eqn:E2.
    + apply find_some in E2. tauto.
    + exact Hin.
Qed.

Lemma query_loop_returns_candidate {World} (svc : services World)
  (standard_title artist : string) (qs : list string) :
  forall (s s' : io World) (u : string),
    query_loop svc standard_title artist qs s = (Ok (Some u), s') ->
    exists k results t,
      nth_error (responses svc qs (world s)) k = Some (Some results)
      /\ In t results /\ uri t = u.
Proof.
  induction qs as [|q rest IH]; intros s s' u E.
  - discriminate.
  - rewrite query_loop_cons in E. cbn [responses].
    destruct (sp_search svc q (world s)) as [r w].
    assert (Next : forall s1, world s1 = w ->
              query_loop svc standard_title artist rest s1
                = (Ok (Some u), s') ->
              exists k results t,
                nth_error (r :: responses svc rest w) k = Some (Some results)
                /\ In t results /\ uri t = u).
    { intros s1 Hw E1. destruct (IH s1 s' u E1) as (k & results & t & H).
      rewrite Hw in H. exists (S k), results, t. exact H. }
    destruct r as [[|first tl]|]; cbn zeta in E.
    + exact (Next (emit (EvSearch q) w s) eq_refl E).
    + pose proof (select_match_in standard_title artist first (first :: tl)
                    (or_introl eq_refl)) as Hin.
      destruct (select_match standard_title artist first (first :: tl))
        as [best_match is_strong_match]. cbn [fst] in Hin.
      assert (Here : forall st, (Ok (Some (uri best_match)), st)
                                = (Ok (Some u), s') ->
                exists k results t,
                  nth_error (Some (first :: tl) :: responses svc rest w) k
                    = Some (Some results)
                  /\ In t results /\ uri t = u).
      { intros st H. injection H as H _.
        exists 0, (first :: tl), best_match. auto. }
      destruct (artists best_match); [discriminate|].
      destruct is_strong_match; [now apply (Here _ E)|].
      destruct (read_decision (stdin s)) as [[d n] lines].
      destruct d as [[| |]|]; try discriminate.
      * now apply (Here _ E).
      * exact (Next {| world := w; stdin := lines;
                       log := log (emit (EvSearch q) w s)
                              ++ repeat EvPrompt n |} eq_refl E).
    + discriminate.
Qed.

(** X11: a track the resolver returns is always one of the candidates the
    catalog gave in answer to one of the three queries. *)
Theorem resolved_track_is_a_candidate {World} (svc : services World)
  (standard_title artist recording_info : string) (s : io World)
  (u : string) :
  fst (search_spotify_track svc standard_title artist recording_info s)
    = Some u ->
  exists k results t,
    nth_error (responses svc (queries standard_title artist recording_info)
                 (world s)) k = Some (Some results)
    /\ In t results /\ uri t = u.
Proof.
  unfold search_spotify_track, try_except, bind.
  destruct (query_loop svc standard_title artist
              (queries standard_title artist recording_info) s)
    as [[r|] s1] eqn:E; cbn [fst ret]; [|discriminate].
  intros ->.
  exact (query_loop_returns_candidate svc standard_title artist _ s s1 u E).
Qed.

Lemma resolved_track_is_a_candidate_witness :
  exists k results t,
    nth_error (responses (resolver_world weak_then_strong)
                 (queries "Autumn Leaves" "Bill Evans" "1959") tt) k
      = Some (Some results)
    /\ In t results /\ uri t = "spotify:track:other"%string.
Proof.
  apply (resolved_track_is_a_candidate (resolver_world weak_then_strong)
           "Autumn Leaves" "Bill Evans" "1959" (start ["y"%string])).
  reflexivity.
Defined.

(** The first query answered with candidates none of which is a strong
    match: what the decision read at the prompt leads to. *)
Lemma first_query_proposal {World} (svc : services World)
  (standard_title artist recording_info : string) (s : io World)
  (first : track) (tl : list track) (w : World) :
  sp_search svc (artist ++ " " ++ standard_title)%string (world s)
    = (Some (first :: tl), w) ->
  find (strong_match standard_title artist) (first :: tl) = None ->
  query_loop svc standard_title artist
    (queries standard_title artist recording_info) s =
  let s1 := emit (EvSearch (artist ++ " " ++ standard_title)%string) w s in
  match artists first with
  | [] => (Raised, s1)
  | _ :: _ =>
      let '(d, n, lines) := read_decision (stdin s) in
      let s2 := {| world := w; stdin := lines;
                   log := log s1 ++ repeat EvPrompt n |} in
      match d with
      | None => (Raised, s2)
      | Some Accept => (Ok (Some (uri first)), s2)
      | Some Reject =>
          query_loop svc standard_title artist
            [ (artist ++ " " ++ recording_info)%string;
              (standard_title ++ " " ++ artist)%string ] s2
      | Some SkipAll => (Ok None, s2)
      end
  end.
Proof.
  intros Hs Hnone. unfold queries. rewrite query_loop_cons, Hs.
  destruct (select_match_first standard_title artist) as [_ H].
  rewrite (H first (first :: tl) Hnone). reflexivity.
Qed.

(** X12: when the first query is answered with candidates none of which
    is a strong match and the proposal is accepted, the track returned is
    the first candidate of that answer; no further query is issued. *)
Theorem accepted_proposal_is_first_result {World} (svc : services World)
  (standard_title artist recording_info : string) (s : io World)
  (first : track) (tl : list track) (w : World) (n : nat)
  (lines : list string) :
  sp_search svc (artist ++ " " ++ standard_title)%string (world s)
    = (Some (first :: tl), w) ->
  find (strong_match standard_title artist) (first :: tl) = None ->
  artists first <> [] ->
  read_decision (stdin s) = (Some Accept, n, lines) ->
  search_spotify_track svc standard_title artist recording_info s
    = (Some (uri first),
       {| world := w; stdin := lines;
          log := (log s ++ [EvSearch (artist ++ " " ++ standard_title)%string])
                 ++ repeat EvPrompt n |}).
Proof.
  intros Hs Hnone Hart Hread.
  unfold search_spotify_track, try_except, bind.
  rewrite (first_query_proposal svc standard_title artist recording_info s
             first tl w Hs Hnone).
  destruct (artists first); [contradiction|].
  cbv zeta. rewrite Hread. reflexivity.
Qed.

Lemma accepted_proposal_is_first_result_witness :
  search_spotify_track (resolver_world weak_then_strong)
    "Autumn Leaves" "Bill Evans" "1959" (start ["what?"; "YES"; "n"]%string)
  = (Some "spotify:track:other"%string,
     {| world := tt; stdin := ["n"%string];
        log := [EvSearch "Bill Evans Autumn Leaves"; EvPrompt; EvPrompt] |}).
Proof.
  apply (accepted_proposal_is_first_result (resolver_world weak_then_strong)
           "Autumn Leaves" "Bill Evans" "1959"
           (start ["what?"; "YES"; "n"]%string) other_song [] tt 2
           ["n"%string]).
  - reflexivity.
  - reflexivity.
  - discriminate.
  - reflexivity.
Defined.

(** X13: when the proposal of the first query is answered with "skip", or
    standard input ends before an answer is read, the result is no match
    and no further query is issued. *)
Theorem skip_or_end_of_input_gives_no_match {World} (svc : services World)
  (standard_title artist recording_info : string) (s : io World)
  (first : track) (tl : list track) (w : World) (d : option decision)
  (n : nat) (lines : list string) :
  sp_search svc (artist ++ " " ++ standard_title)%string (world s)
    = (Some (first :: tl), w) ->
  find (strong_match standard_title artist) (first :: tl) = None ->
  artists first <> [] ->
  read_decision (stdin s) = (d, n, lines) ->
  d = Some SkipAll \/ d = None ->
  search_spotify_track svc standard_title artist recording_info s
    = (None,
       {| world := w; stdin := lines;
          log := (log s ++ [EvSearch (artist ++ " " ++ standard_title)%string])
                 ++ repeat EvPrompt n |}).
Proof.
  intros Hs Hnone Hart Hread Hd.
  unfold search_spotify_track, try_except, bind.
  rewrite (first_query_proposal svc standard_title artist recording_info s
             first tl w Hs Hnone).
  destruct (artists first); [contradiction|].
  cbv zeta. rewrite Hread. destruct Hd as [-> | ->]; reflexivity.
Qed.

Lemma skip_or_end_of_input_gives_no_match_witness :
  search_spotify_track (resolver_world weak_then_strong)
    "Autumn Leaves" "Bill Evans" "1959" (start ["maybe"%string])
  = (None,
     {| world := tt; stdin := [];
        log := [EvSearch "Bill Evans Autumn Leaves"; EvPrompt; EvPrompt] |}).
Proof.
  apply (skip_or_end_of_input_gives_no_match
           (resolver_world weak_then_strong)
           "Autumn Leaves" "Bill Evans" "1959" (start ["maybe"%string])
           other_song [] tt None 2 []).
  - reflexivity.
  - reflexivity.
  - discriminate.
  - reflexivity.
  - right. reflexivity.
Defined.

(** X14: when the first query is answered with candidates none of which
    is a strong match and the first candidate has no artist, reading its
    first artist fails: the result is no match, without a prompt and
    without any further query. *)
Theorem proposal_without_artist_gives_no_match {World}
  (svc : services World) (standard_title artist recording_info : string)
  (s : io World) (first : track) (tl : list track) (w : World) :
  sp_search svc (artist ++ " " ++ standard_title)%string (world s)
    = (Some (first :: tl), w) ->
  find (strong_match standard_title artist) (first :: tl) = None ->
  artists first = [] ->
  search_spotify_track svc standard_title artist recording_info s
    = (None, emit (EvSearch (artist ++ " " ++ standard_title)%string) w s).
Proof.
  intros Hs Hnone Hart.
  unfold search_spotify_track, try_except, bind.
  rewrite (first_query_proposal svc standard_title artist recording_info s
             first tl w Hs Hnone), Hart.
  reflexivity.
Qed.

Lemma proposal_without_artist_gives_no_match_witness :
  search_spotify_track (resolver_world (fun _ => Some [anonymous; leaves]))
    "Summertime" "Bill Evans" "1959" (start ["y"%string])
  = (None, {| world := tt; stdin := ["y"%string];
              log := [EvSearch "Bill Evans Summertime"] |}).
Proof.
  apply (proposal_without_artist_gives_no_match
           (resolver_world (fun _ => Some [anonymous; leaves]))
           "Summertime" "Bill Evans" "1959" (start ["y"%string])
           anonymous [leaves] tt).
  - reflexivity.
  - reflexivity.
  - reflexivity.
Defined.

(** X15: the prompt is repeated until a line is understood ("y", "yes",
    "n", "no", "s", "skip", in any letter case and with blanks around):
    the lines before that one are skipped, the lines after it are left
    unread, and there is one prompt per line read; when no line is
    understood, every line is read and one more prompt meets the end of the
    input. *)
Theorem prompt_accounting (lines : list string) (d : option decision)
  (n : nat) (rest : list string) :
  read_decision lines = (d, n, rest) ->
  (forall dec, d = Some dec ->
     exists skipped answer,
       lines = skipped ++ answer :: rest
       /\ Forall (fun l => recognized l = false) skipped
       /\ recognized answer = true
       /\ n = S (List.length skipped))
  /\ (d = None ->
      Forall (fun l => recognized l = false) lines
      /\ rest = [] /\ n = S (List.length lines)).
Proof.
  revert d n rest.
  induction lines as [|l lines IH]; intros d n rest E; cbn [read_decision] in E.
  - injection E as <- <- <-. split; [discriminate|]. intros _.
    repeat split. constructor.
  - assert (Answer : forall dec, recognized l = true ->
              (Some dec, 1, lines) = (d, n, rest) ->
              (forall dec0, d = Some dec0 ->
                 exists skipped answer,
                   l :: lines = skipped ++ answer :: rest
                   /\ Forall (fun l => recognized l = false) skipped
                   /\ recognized answer = true
                   /\ n = S (List.length skipped))
              /\ (d = None ->
                  Forall (fun l => recognized l = false) (l :: lines)
                  /\ rest = [] /\ n = S (List.length (l :: lines)))).
    { intros dec Hrec H. injection H as <- <- <-.
      split; [|discriminate]. intros dec0 _.
      exists [], l. repeat split; [constructor | exact Hrec]. }
    unfold recognized in Answer. cbv zeta in Answer.
    destruct (mem (strip (lower l)) ["y"; "yes"]%string) eqn:E1;
      [apply (Answer Accept); [reflexivity | exact E]|].
    destruct (mem (strip (lower l)) ["n"; "no"]%string) eqn:E2;
      [apply (Answer Reject); [reflexivity | exact E]|].
    destruct (mem (strip (lower l)) ["s"; "skip"]%string) eqn:E3;
      [apply (Answer SkipAll); [reflexivity | exact E]|].
    assert (Hl : recognized l = false).
    { unfold recognized. cbv zeta. now rewrite E1, E2, E3. }
    destruct (read_decision lines) as [[d' n'] rest'] eqn:E'.
    injection E as <- <- <-.
    destruct (IH d' n' rest' eq_refl) as [IH1 IH2]. split.
    + intros dec Hd. destruct (IH1 dec Hd) as (sk & ans & H1 & H2 & H3 & H4).
      exists (l :: sk), ans. cbn [app List.length]. rewrite H1, H4.
      repeat split; [now constructor | exact H3].
    + intros Hd. destruct (IH2 Hd) as (H1 & H2 & H3).
      cbn [List.length]. rewrite H3. repeat split; [now constructor | exact H2].
Qed.

Lemma prompt_accounting_witness :
  exists skipped answer,
    ["what?"; " Yes "; "n"]%string = skipped ++ answer :: ["n"%string]
    /\ Forall (fun l => recognized l = false) skipped
    /\ recognized answer = true
    /\ 2 = S (List.length skipped).
Proof.
  destruct (prompt_accounting ["what?"; " Yes "; "n"]%string
              (Some Accept) 2 ["n"%string] eq_refl) as [H _].
  exact (H Accept eq_refl).
Defined.

(* ================================================================== *)
(** * Further properties: the assembler and the run *)
(* ================================================================== *)

Lemma offer_spec (track_uri : option string)
  (all_track_uris : list string) :
  (forall x, In x (offer track_uri all_track_uris) <->
             In x all_track_uris \/ (track_uri = Some x /\ x <> EmptyString))
  /\ (exists new, offer track_uri all_track_uris = all_track_uris ++ new)
  /\ (NoDup all_track_uris -> NoDup (offer track_uri all_track_uris)).
Proof.
  unfold offer. destruct track_uri as [u|].
  - destruct (is_empty u) eqn:He; cbn [negb andb].
    + apply is_empty_spec in He. subst u. split; [|split].
      * intros x. split; [now left|]. intros [H | [H1 H2]]; [exact H|].
        injection H1 as <-. congruence.
      * exists []. now rewrite app_nil_r.
      * auto.
    + assert (Hne : u <> EmptyString).
      { intros ->. discriminate. }
      destruct (mem u all_track_uris) eqn:Hm; cbn [negb].
      * apply mem_spec in Hm. split; [|split].
        -- intros x. split; [now left|]. intros [H | [H1 _]]; [exact H|].
           injection H1 as <-. exact Hm.
        -- exists []. now rewrite app_nil_r.
        -- auto.
      * apply mem_false in Hm. split; [|split].
        -- intros x. rewrite in_app_iff. cbn [In]. split.
           ++ intros [H | [<- | []]]; [now left | right; now split].
           ++ intros [H | [H1 _]]; [now left|]. injection H1 as <-.
              right. now left.
        -- now exists [u].
        -- intros Hnd. apply NoDup_app; [exact Hnd | repeat constructor; auto|].
           intros x Hx [<- | []]. contradiction.
  - split; [|split].
    + intros x. split; [now left|]. intros [H | [H _]]; [exact H|discriminate].
    + exists []. now rewrite app_nil_r.
    + auto.
Qed.

(** X16: offering a track id changes the buffer only by adding the id at
    its end, and does so exactly when the id is a non-empty string the
    buffer does not hold; a buffer of pairwise distinct ids stays one. *)
Theorem offer_keeps_buffer_clean (track_uri : option string)
  (all_track_uris : list string) :
  (forall x, In x (offer track_uri all_track_uris) <->
             In x all_track_uris \/ (track_uri = Some x /\ x <> EmptyString))
  /\ (exists new, offer track_uri all_track_uris = all_track_uris ++ new)
  /\ (NoDup all_track_uris -> NoDup (offer track_uri all_track_uris)).
Proof. exact (offer_spec track_uri all_track_uris). Qed.

Lemma offer_keeps_buffer_clean_witness :
  NoDup (offer (Some "spotify:track:b"%string)
               ["spotify:track:a"; "spotify:track:b"]%string).
Proof.
  apply (offer_keeps_buffer_clean (Some "spotify:track:b"%string)
           ["spotify:track:a"; "spotify:track:b"]%string).
  repeat constructor; simpl; intuition discriminate.
Defined.

Lemma grows_weaken {World} (P Q : event -> Prop) (s s' : io World) :
  (forall e, P e -> Q e) -> grows P s s' -> grows Q s s'.
Proof.
  intros H (evs & E & F). exists evs. split; [exact E|].
  eapply Forall_impl; eassumption.
Qed.

Lemma search_spotify_track_calls {World} (svc : services World)
  (standard_title artist recording_info : string) (s : io World) :
  grows resolver_event s
    (snd (search_spotify_track svc standard_title artist recording_info s)).
Proof.
  destruct (query_loop_calls svc standard_title artist
              (queries standard_title artist recording_info) s)
    as (evs & k & E & F & _).
  exists evs. split; [|exact F].
  unfold search_spotify_track, try_except, bind.
  destruct (query_loop svc standard_title artist
              (queries standard_title artist recording_info) s)
    as [[r|] s1]; exact E.
Qed.

Lemma offer_no_empty (track_uri : option string)
  (all_track_uris : list string) :
  ~ In EmptyString all_track_uris ->
  ~ In EmptyString (offer track_uri all_track_uris).
Proof.
  intros H Hin.
  apply (proj1 (offer_spec track_uri all_track_uris)) in Hin.
  destruct Hin as [Hin | [_ Hne]]; [now apply H | now apply Hne].
Qed.

Lemma offer_NoDup (track_uri : option string) (all_track_uris : list string) :
  NoDup all_track_uris -> NoDup (offer track_uri all_track_uris).
Proof. apply offer_spec. Qed.

Section Batches.

Context {World : Type} (svc : services World).

(** The inner loop keeps the buffer clean and calls only the resolver. *)
Lemma recordings_loop_clean (standard_title : string)
  (recordings : list recording) :
  forall (all_track_uris : list string) (s : io World),
    NoDup all_track_uris -> ~ In EmptyString all_track_uris ->
    let r := recordings_loop svc standard_title recordings all_track_uris s in
    NoDup (fst r) /\ ~ In EmptyString (fst r)
    /\ grows resolver_event s (snd r).
Proof.
  induction recordings as [|x rest IH]; intros all_track_uris s Hnd Hne.
  - cbn. repeat split; auto. apply grows_refl.
  - rewrite recordings_loop_cons.
    pose proof (search_spotify_track_calls svc standard_title (artist x)
                  (info x) s) as Hg.
    destruct (search_spotify_track svc standard_title (artist x) (info x) s)
      as [track_uri s1]. cbn [snd] in Hg.
    destruct (IH (offer track_uri all_track_uris) s1
                (offer_NoDup track_uri all_track_uris Hnd)
                (offer_no_empty track_uri all_track_uris Hne))
      as (H1 & H2 & H3).
    cbv zeta. repeat split; auto. eapply grows_trans; eassumption.
Qed.

Lemma In_skipn {A} (n : nat) (l : list A) (x : A) :
  In x (skipn n l) -> In x l.
Proof.
  intros H. rewrite <- (firstn_skipn n l). apply in_or_app. now right.
Qed.

Lemma NoDup_skipn {A} (n : nat) (l : list A) : NoDup l -> NoDup (skipn n l).
Proof.
  intros H. rewrite <- (firstn_skipn n l) in H.
  now apply NoDup_app_remove_l in H.
Qed.

(** The flush check keeps the buffer clean; its call, if any, is a full
    batch of 50 distinct non-empty ids. *)
Lemma flush_batch_clean (playlist_id : string) (all_track_uris : list string)
  (s : io World) :
  NoDup all_track_uris -> ~ In EmptyString all_track_uris ->
  List.length all_track_uris < 100 ->
  let r := flush_batch svc playlist_id all_track_uris s in
  NoDup (fst r) /\ ~ In EmptyString (fst r) /\ List.length (fst r) < 50
  /\ grows (batch_ok playlist_id) s (snd r).
Proof.
  intros Hnd Hne Hlen. unfold flush_batch.
  destruct (Nat.leb_spec 50 (List.length all_track_uris)) as [Hge | Hlt].
  - unfold bind. rewrite add_tracks_to_playlist_eq. cbn [fst snd ret].
    split; [now apply NoDup_skipn|].
    split; [intros H; apply Hne; now apply In_skipn in H|].
    split; [rewrite length_skipn; lia|].
    apply grows_emit. unfold batch_ok. split; [reflexivity|].
    split; [rewrite length_firstn; lia|].
    split; [now apply NoDup_firstn|].
    intros H. apply Hne. now apply In_firstn in H.
  - cbn. repeat split; auto. apply grows_refl.
Qed.

Lemma resolver_event_batch_ok (playlist_id : string) (e : event) :
  resolver_event e -> batch_ok playlist_id e.
Proof. destruct e; cbn; tauto. Qed.

Lemma standards_loop_clean (playlist_id : string) (standards : list standard) :
  forall (all_track_uris : list string) (s : io World),
    NoDup all_track_uris -> ~ In EmptyString all_track_uris ->
    List.length all_track_uris < 50 ->
    let r := standards_loop svc playlist_id standards all_track_uris s in
    NoDup (fst r) /\ ~ In EmptyString (fst r) /\ List.length (fst r) < 50
    /\ grows (batch_ok playlist_id) s (snd r).
Proof.
  induction standards as [|st rest IH]; intros all_track_uris s Hnd Hne Hlen.
  - cbn. repeat split; auto. apply grows_refl.
  - rewrite standards_loop_cons.
    pose proof (scrape_recommended_recordings_bound svc (url st) s)
      as [Hr _].
    assert (Hg1 : grows (batch_ok playlist_id) s
                    (snd (scrape_recommended_recordings svc (url st) s))).
    { rewrite scrape_recommended_recordings_eq.
      destruct (http_get_text svc (url st) (world s)) as [r w].
      now apply grows_emit. }
    destruct (scrape_recommended_recordings svc (url st) s)
      as [recordings s1]. cbn [fst snd] in Hr, Hg1.
    destruct (is_nil recordings).
    + destruct (IH all_track_uris s1 Hnd Hne Hlen) as (H1 & H2 & H3 & H4).
      cbv zeta. repeat split; auto. eapply grows_trans; eassumption.
    + pose proof (recordings_loop_bound svc (title st) recordings
                    all_track_uris s1) as Hb.
      pose proof (recordings_loop_clean (title st) recordings
                    all_track_uris s1 Hnd Hne) as Hc.
      cbv zeta in Hb, Hc.
      destruct (recordings_loop svc (title st) recordings all_track_uris s1)
        as [all1 s2]. cbn [fst snd] in Hb, Hc.
      destruct Hb as (_ & Hb & _). destruct Hc as (Hnd1 & Hne1 & Hg2).
      pose proof (flush_batch_clean playlist_id all1 s2 Hnd1 Hne1
                    ltac:(lia)) as Hf.
      cbv zeta in Hf.
      destruct (flush_batch svc playlist_id all1 s2) as [all2 s3].
      cbn [fst snd] in Hf. destruct Hf as (Hnd2 & Hne2 & Hlen2 & Hg3).
      destruct (IH all2 s3 Hnd2 Hne2 Hlen2) as (H1 & H2 & H3 & H4).
      cbv zeta. repeat split; auto.
      eapply grows_trans; [exact Hg1|].
      eapply grows_trans;
        [eapply grows_weaken;
           [apply resolver_event_batch_ok | exact Hg2]|].
      eapply grows_trans; eassumption.
Qed.

(** [run], case by case. *)
Lemma run_eq (s : io World) :
  run svc s =
  let (standards, s1) := scrape_top_100_standards svc s in
  if is_nil standards then (Ok tt, s1)
  else
    let (r, w) :=
      sp_user_playlist_create svc default_playlist_name (world s1) in
    let s2 := emit (EvCreatePlaylist default_playlist_name) w s1 in
    match r with
    | None => (Raised, s2)
    | Some playlist_id =>
        let (all_track_uris, s3) :=
          standards_loop svc playlist_id standards [] s2 in
        (Ok tt, snd (flush_remainder svc playlist_id all_track_uris s3))
    end.
Proof.
  unfold run, mbind, lift. unfold bind at 1 2.
  destruct (scrape_top_100_standards svc s) as [standards s1].
  cbn [mret ret].
  destruct (is_nil standards); [reflexivity|].
  unfold bind at 1. unfold create_playlist.
  destruct (sp_user_playlist_create svc default_playlist_name (world s1))
    as [[playlist_id|] w]; [|reflexivity].
  unfold bind at 1 2.
  destruct (standards_loop svc playlist_id standards [] _) as [all s3].
  destruct (flush_remainder svc playlist_id all s3) as [[] s4].
  reflexivity.
Qed.

End Batches.

(** X17: in a run that finds works and creates its playlist, the playlist
    is created once, right after the fetch of the index page, and every
    later call is a page fetch, a search, a prompt, or an append call that
    submits between 1 and 50 pairwise distinct, non-empty ids to the
    playlist created. *)
Theorem run_batches_well_formed {World} (svc : services World)
  (s : io World) (playlist_id : string) (w : World) :
  fst (scrape_top_100_standards svc s) <> [] ->
  sp_user_playlist_create svc default_playlist_name
    (world (snd (scrape_top_100_standards svc s))) = (Some playlist_id, w) ->
  fst (run svc s) = Ok tt
  /\ exists evs,
       log (snd (run svc s))
         = log s ++ EvFetch index_url
                    :: EvCreatePlaylist default_playlist_name :: evs
       /\ Forall (batch_ok playlist_id) evs.
Proof.
  intros Hne Hcreate. rewrite run_eq.
  assert (Hlog : log (snd (scrape_top_100_standards svc s))
                 = log s ++ [EvFetch index_url]).
  { rewrite scrape_top_100_standards_eq.
    destruct (http_find_links svc index_url (world s)); reflexivity. }
  destruct (scrape_top_100_standards svc s) as [standards s1].
  cbn [fst snd] in Hne, Hcreate, Hlog.
  destruct standards as [|st rest]; [contradiction|]. cbn [is_nil].
  rewrite Hcreate. cbv zeta.
  set (s2 := emit (EvCreatePlaylist default_playlist_name) w s1).
  pose proof (standards_loop_clean svc playlist_id (st :: rest) [] s2
                (NoDup_nil _) (fun H => H) ltac:(simpl; lia)) as Hc.
  cbv zeta in Hc.
  destruct (standards_loop svc playlist_id (st :: rest) [] s2) as [all s3].
  cbn [fst snd] in Hc. destruct Hc as (Hnd & Hnoe & Hlen & evs & E & F).
  split; [reflexivity|]. cbn [snd]. unfold flush_remainder.
  destruct all as [|x all]; cbn [is_nil ret snd].
  - exists evs. split; [|exact F].
    rewrite E. unfold s2. cbn [emit log]. rewrite Hlog.
    rewrite <- !app_assoc. reflexivity.
  - rewrite add_tracks_to_playlist_eq. cbn [snd emit log].
    exists (evs ++ [EvAppend playlist_id (x :: all)]). split.
    + rewrite E. unfold s2. cbn [emit log]. rewrite Hlog.
      rewrite <- !app_assoc. reflexivity.
    + apply Forall_app. split; [exact F|]. constructor; [|constructor].
      unfold batch_ok. split; [reflexivity|].
      split; [cbn [List.length] in *; lia|]. split; assumption.
Qed.

Lemma run_batches_well_formed_witness :
  exists evs,
    log (snd (run run_world (start [])))
      = EvFetch index_url :: EvCreatePlaylist default_playlist_name :: evs
    /\ Forall (batch_ok "playlist-1") evs.
Proof.
  destruct (run_batches_well_formed run_world (start []) "playlist-1" tt)
    as [_ H].
  - vm_compute. discriminate.
  - reflexivity.
  - exact H.
Defined.

(** X18: [run] raises exactly when it found works and the creation of the
    playlist raised; nothing else makes it fail, and in that case it has
    made no search and no append call. *)
Theorem run_raises_only_without_playlist {World} (svc : services World)
  (s : io World) :
  let h := scrape_top_100_standards svc s in
  (fst (run svc s) = Raised <->
   fst h <> []
   /\ fst (sp_user_playlist_create svc default_playlist_name
             (world (snd h))) = None)
  /\ (fst (run svc s) = Raised ->
      log (snd (run svc s))
        = log s ++ [EvFetch index_url;
                    EvCreatePlaylist default_playlist_name]).
Proof.
  cbv zeta. rewrite run_eq.
  assert (Hlog : log (snd (scrape_top_100_standards svc s))
                 = log s ++ [EvFetch index_url]).
  { rewrite scrape_top_100_standards_eq.
    destruct (http_find_links svc index_url (world s)); reflexivity. }
  destruct (scrape_top_100_standards svc s) as [standards s1].
  cbn [fst snd] in *.
  destruct standards as [|st rest]; cbn [is_nil fst].
  - split; [|discriminate]. split; [discriminate|]. intros [H _]. congruence.
  - destruct (sp_user_playlist_create svc default_playlist_name (world s1))
      as [[playlist_id|] w]; cbv zeta.
    + destruct (standards_loop svc playlist_id (st :: rest) [] _)
        as [all s3]. cbn [fst].
      split; [|discriminate]. split; [discriminate|].
      intros [_ H]. discriminate.
    + cbn [fst snd emit log]. split.
      * split; [intros _; split; [discriminate | reflexivity] | reflexivity].
      * intros _. rewrite Hlog, <- app_assoc. reflexivity.
Qed.

Lemma run_raises_only_without_playlist_witness :
  log (snd (run no_playlist_world (start [])))
    = [EvFetch index_url; EvCreatePlaylist default_playlist_name].
Proof.
  destruct (run_raises_only_without_playlist no_playlist_world (start []))
    as [_ H].
  apply H. reflexivity.
Defined.

Lemma appended_app (l1 l2 : list event) :
  appended (l1 ++ l2) = appended l1 ++ appended l2.
Proof.
  induction l1 as [|e l1 IH]; [reflexivity|].
  destruct e; cbn; rewrite IH; [reflexivity .. | now rewrite app_assoc].
Qed.

Lemma fetches_of_app (l1 l2 : list event) :
  fetches_of (l1 ++ l2) = fetches_of l1 ++ fetches_of l2.
Proof.
  induction l1 as [|e l1 IH]; [reflexivity|].
  destruct e; cbn; now rewrite IH.
Qed.

Lemma resolver_events_silent (evs : list event) :
  Forall resolver_event evs -> appended evs = [] /\ fetches_of evs = [].
Proof.
  induction 1 as [|e evs He _ [IH1 IH2]]; [split; reflexivity|].
  destruct e; cbn in He |- *; try contradiction; now split.
Qed.

Section Traces.

Context {World : Type} (svc : services World).

(** The inner loop only adds ids at the end of the buffer and makes no
    fetch and no append call. *)
Lemma recordings_loop_trace (standard_title : string)
  (recordings : list recording) :
  forall (all_track_uris : list string) (s : io World),
    let r := recordings_loop svc standard_title recordings all_track_uris s in
    exists evs new,
      log (snd r) = log s ++ evs
      /\ appended evs = [] /\ fetches_of evs = []
      /\ fst r = all_track_uris ++ new.
Proof.
  induction recordings as [|x rest IH]; intros all_track_uris s.
  - exists [], []. cbn. now rewrite !app_nil_r.
  - rewrite recordings_loop_cons.
    destruct (search_spotify_track_calls svc standard_title (artist x)
                (info x) s) as (evs1 & E1 & F1).
    destruct (search_spotify_track svc standard_title (artist x) (info x) s)
      as [track_uri s1]. cbn [snd] in E1.
    destruct (IH (offer track_uri all_track_uris) s1)
      as (evs2 & new2 & E2 & A2 & Fe2 & B2).
    destruct (offer_spec track_uri all_track_uris) as (_ & [new1 O] & _).
    destruct (resolver_events_silent evs1 F1) as [A1 Fe1].
    cbv zeta. exists (evs1 ++ evs2), (new1 ++ new2).
    rewrite E2, E1, B2, O, appended_app, fetches_of_app, A1, A2, Fe1, Fe2.
    now rewrite <- !app_assoc.
Qed.

(** The flush check fetches nothing; what it submits followed by what it
    leaves in the buffer is the buffer it was given. *)
Lemma flush_batch_trace (playlist_id : string) (all_track_uris : list string)
  (s : io World) :
  let r := flush_batch svc playlist_id all_track_uris s in
  exists evs,
    log (snd r) = log s ++ evs
    /\ fetches_of evs = []
    /\ appended evs ++ fst r = all_track_uris.
Proof.
  unfold flush_batch.
  destruct (50 <=? List.length all_track_uris)%nat.
  - unfold bind. rewrite add_tracks_to_playlist_eq. cbn [fst snd ret].
    exists [EvAppend playlist_id (firstn 50 all_track_uris)].
    cbn [emit log appended fetches_of]. rewrite app_nil_r.
    repeat split. apply firstn_skipn.
  - exists []. cbn. now rewrite app_nil_r.
Qed.

Lemma standards_loop_trace (playlist_id : string) (standards : list standard) :
  forall (all_track_uris : list string) (s : io World),
    let r := standards_loop svc playlist_id standards all_track_uris s in
    exists evs new,
      log (snd r) = log s ++ evs
      /\ fetches_of evs = map url standards
      /\ appended evs ++ fst r = all_track_uris ++ new.
Proof.
  induction standards as [|st rest IH]; intros all_track_uris s.
  - exists [], []. cbn. now rewrite !app_nil_r.
  - rewrite standards_loop_cons. rewrite scrape_recommended_recordings_eq.
    destruct (http_get_text svc (url st) (world s)) as [rt w].
    set (recordings := match rt with
                       | Some text =>
                           firstn 6 (unique_recordings
                                       (raw_recordings svc text))
                       | None => []
                       end).
    set (s1 := emit (EvFetch (url st)) w s).
    destruct (is_nil recordings).
    + destruct (IH all_track_uris s1) as (evs & new & E & Fe & A).
      cbv zeta. exists (EvFetch (url st) :: evs), new.
      rewrite E. unfold s1. cbn [emit log fetches_of appended map].
      rewrite <- app_assoc, Fe. repeat split. exact A.
    + destruct (recordings_loop_trace (title st) recordings
                  all_track_uris s1) as (evs1 & new1 & E1 & A1 & Fe1 & B1).
      destruct (recordings_loop svc (title st) recordings all_track_uris s1)
        as [all1 s2]. cbn [fst snd] in E1, B1.
      destruct (flush_batch_trace playlist_id all1 s2)
        as (evs2 & E2 & Fe2 & A2).
      destruct (flush_batch svc playlist_id all1 s2) as [all2 s3].
      cbn [fst snd] in E2, A2.
      destruct (IH all2 s3) as (evs3 & new3 & E3 & Fe3 & A3).
      cbv zeta.
      exists (EvFetch (url st) :: evs1 ++ evs2 ++ evs3), (new1 ++ new3).
      rewrite E3, E2, E1. unfold s1. cbn [emit log fetches_of appended map].
      rewrite !fetches_of_app, !appended_app, Fe1, Fe2, Fe3, A1.
      cbn [app]. rewrite <- !app_assoc. cbn [app].
      repeat split.
      rewrite A3, app_assoc, A2, B1, <- !app_assoc. reflexivity.
Qed.

End Traces.

(** X19: accepted ids are never dropped or reordered before they are
    submitted.  Across a flush check the ids submitted so far followed by
    the buffer are the same sequence, whether or not the call succeeded;
    across the loop over the works that sequence only gets longer at its
    end; and the final flush submits everything the buffer holds. *)
Theorem ids_kept_in_order {World} (svc : services World)
  (playlist_id : string) (standards : list standard)
  (all_track_uris : list string) (s : io World) :
  (let r := flush_batch svc playlist_id all_track_uris s in
   pipeline (snd r) (fst r) = pipeline s all_track_uris)
  /\ (let r := standards_loop svc playlist_id standards all_track_uris s in
      exists new, pipeline (snd r) (fst r) = pipeline s all_track_uris ++ new)
  /\ (let r := flush_remainder svc playlist_id all_track_uris s in
      appended (log (snd r)) = pipeline s all_track_uris).
Proof.
  unfold pipeline. split; [|split]; cbv zeta.
  - destruct (flush_batch_trace svc playlist_id all_track_uris s)
      as (evs & E & _ & A).
    rewrite E, appended_app, <- app_assoc, A. reflexivity.
  - destruct (standards_loop_trace svc playlist_id standards
                all_track_uris s) as (evs & new & E & _ & A).
    exists new. rewrite E, appended_app, <- !app_assoc, A. reflexivity.
  - unfold flush_remainder.
    destruct all_track_uris as [|x l]; cbn [is_nil ret snd].
    + now rewrite app_nil_r.
    + rewrite add_tracks_to_playlist_eq. cbn [snd emit log].
      rewrite appended_app. cbn [appended]. now rewrite app_nil_r.
Qed.

(** X20: a run that does not raise fetches the index page and then the
    page of each work the harvester returned, each exactly once and in the
    order of the list. *)
Theorem each_page_fetched_once {World} (svc : services World)
  (s : io World) :
  fst (run svc s) = Ok tt ->
  fetches_of (log (snd (run svc s)))
    = fetches_of (log s)
      ++ index_url :: map url (fst (scrape_top_100_standards svc s)).
Proof.
  rewrite run_eq.
  assert (Hlog : log (snd (scrape_top_100_standards svc s))
                 = log s ++ [EvFetch index_url]).
  { rewrite scrape_top_100_standards_eq.
    destruct (http_find_links svc index_url (world s)); reflexivity. }
  destruct (scrape_top_100_standards svc s) as [standards s1].
  cbn [fst snd] in *.
  destruct standards as [|st rest]; cbn [is_nil].
  - intros _. cbn [snd map]. rewrite Hlog, fetches_of_app. reflexivity.
  - destruct (sp_user_playlist_create svc default_playlist_name (world s1))
      as [[playlist_id|] w]; cbv zeta; [|discriminate].
    set (s2 := emit (EvCreatePlaylist default_playlist_name) w s1).
    destruct (standards_loop_trace svc playlist_id (st :: rest) [] s2)
      as (evs & new & E & Fe & _).
    destruct (standards_loop svc playlist_id (st :: rest) [] s2)
      as [all s3]. cbn [fst snd] in E |- *.
    intros _.
    assert (H3 : fetches_of (log s3)
                 = fetches_of (log s) ++ index_url :: map url (st :: rest)).
    { rewrite E, fetches_of_app, Fe. unfold s2. cbn [emit log].
      rewrite fetches_of_app, Hlog, fetches_of_app. cbn [fetches_of].
      rewrite app_nil_r, <- app_assoc. reflexivity. }
    unfold flush_remainder. destruct all as [|x l]; cbn [is_nil ret snd].
    + exact H3.
    + rewrite add_tracks_to_playlist_eq. cbn [snd emit log].
      rewrite fetches_of_app, H3. cbn [fetches_of]. now rewrite app_nil_r.
Qed.

Lemma each_page_fetched_once_witness :
  fetches_of (log (snd (run run_world (start []))))
    = index_url :: map url ten_standards.
Proof.
  apply (each_page_fetched_once run_world (start [])).
  vm_compute. reflexivity.
Defined.

(* ================================================================== *)
(** * The failure policy of the resolver (C5) *)
(* ================================================================== *)

Section Failure.

Context {World : Type} (svc : services World).
Variables standard_title artist : string.

(** However the query at position [k] is reached, through empty answers
    or rejected proposals, its raising search is the last call of the
    loop. *)
Lemma query_loop_error_stops (qs : list string) :
  forall (s : io World) (k : nat),
    nth_error (responses svc qs (world s)) k = Some None ->
    ends_at Raised qs k s (query_loop svc standard_title artist qs s).
Proof.
  induction qs as [|q rest IH]; intros s k Hk.
  - destruct k; discriminate.
  - rewrite query_loop_cons. cbn [responses] in Hk.
    destruct (sp_search svc q (world s)) as [r w].
    destruct k as [|k].
    + cbn in Hk. injection Hk as ->.
      exists [EvSearch q], 1. cbn [fst snd emit log].
      split; [reflexivity|]. split; [reflexivity|]. split; [lia|].
      intros _. split; [reflexivity|]. exists [], q. now split.
    + cbn [nth_error] in Hk.
      assert (Stop : forall (res : result (option string)) n lines,
                ends_at Raised (q :: rest) (S k) s
                  (res, {| world := w; stdin := lines;
                           log := log (emit (EvSearch q) w s)
                                  ++ repeat EvPrompt n |})).
      { intros res n lines. exists (EvSearch q :: repeat EvPrompt n), 1.
        cbn [fst snd emit log]. rewrite <- app_assoc.
        split; [reflexivity|].
        split; [cbn; now rewrite searches_of_prompts|].
        split; [lia|]. intros H. discriminate. }
      assert (Stop0 : forall res : result (option string),
                ends_at Raised (q :: rest) (S k) s
                  (res, emit (EvSearch q) w s)).
      { intros res. destruct (Stop res 0 (stdin s)) as (evs & j & H).
        exists evs, j. cbn [snd log repeat] in H |- *.
        rewrite app_nil_r in H. exact H. }
      assert (Go : forall n lines,
                ends_at Raised (q :: rest) (S k) s
                  (query_loop svc standard_title artist rest
                     {| world := w; stdin := lines;
                        log := log (emit (EvSearch q) w s)
                               ++ repeat EvPrompt n |})).
      { intros n lines.
        destruct (IH {| world := w; stdin := lines;
                        log := log (emit (EvSearch q) w s)
                               ++ repeat EvPrompt n |} k Hk)
          as (evs & j & E & S1 & Hj & Hlast).
        exists ((EvSearch q :: repeat EvPrompt n) ++ evs), (S j).
        split; [rewrite E; cbn [log emit]; now rewrite <- !app_assoc|].
        split.
        - cbn [app searches_of firstn].
          now rewrite searches_of_app, searches_of_prompts, S1.
        - split; [lia|]. intros Hj'. injection Hj' as Hj'.
          destruct (Hlast Hj') as (Hr & evs0 & q' & Hq & ->).
          split; [exact Hr|].
          exists ((EvSearch q :: repeat EvPrompt n) ++ evs0), q'.
          split; [exact Hq | now rewrite <- app_assoc]. }
      destruct r as [[|first tl]|]; cbn zeta.
      * destruct (Go 0 (stdin s)) as (evs & j & H). exists evs, j.
        cbn [repeat] in H. rewrite app_nil_r in H.
        destruct s as [w0 i0 l0]. exact H.
      * destruct (select_match standard_title artist first (first :: tl))
          as [best_match is_strong_match].
        destruct (artists best_match); [apply Stop0|].
        destruct is_strong_match; [apply Stop0|].
        destruct (read_decision (stdin s)) as [[d n] lines].
        destruct d as [[| |]|]; auto.
      * apply Stop0.
Qed.

(** Reached through empty answers only, the raising search ends the loop
    with nothing read from standard input. *)
Lemma query_loop_error_after_empty (qs : list string) :
  forall (s : io World) (k : nat),
    nth_error (responses svc qs (world s)) k = Some None ->
    (forall j, j < k ->
       nth_error (responses svc qs (world s)) j = Some (Some [])) ->
    exists w,
      query_loop svc standard_title artist qs s =
      (Raised,
       {| world := w; stdin := stdin s;
          log := log s ++ map EvSearch (firstn (S k) qs) |}).
Proof.
  induction qs as [|q rest IH]; intros s k Hk Hbefore.
  - destruct k; discriminate.
  - rewrite query_loop_cons. cbn [responses] in Hk, Hbefore.
    destruct (sp_search svc q (world s)) as [r w]. destruct k as [|k].
    + cbn in Hk. injection Hk as ->. exists w. reflexivity.
    + pose proof (Hbefore 0 ltac:(lia)) as H0. cbn in H0.
      injection H0 as ->. cbn zeta.
      destruct (IH (emit (EvSearch q) w s) k) as [w' E].
      * exact Hk.
      * intros j Hj. apply (Hbefore (S j)). lia.
      * exists w'. rewrite E. cbn [emit stdin log world].
        rewrite <- app_assoc. reflexivity.
Qed.

End Failure.

(** C5, as the code has it: the first search that raises ends the
    resolution, whichever of the three queries it belongs to and however
    that query was reached.  (1) If the search of the query at position k
    raises, the searches issued are at most the queries up to that one, in
    order, and if that one was issued it is the last call made and the
    result is no match.  (2) When the queries before it were answered with
    nothing, the result is no match, nothing is read from standard input
    and exactly the queries up to that one were issued.  (3) The same holds
    of the loop over any remaining queries under the method's handler.
    (4) The result is no match whenever every query raises or finds
    nothing.  The resolver itself cannot raise: its type is [St], not
    [M]. *)
Theorem search_error_ends_resolution {World} (svc : services World)
  (standard_title artist recording_info : string) (s : io World) :
  let qs := queries standard_title artist recording_info in
  let out :=
    search_spotify_track svc standard_title artist recording_info s in
  (forall k,
     nth_error (responses svc qs (world s)) k = Some None ->
     exists evs j,
       log (snd out) = log s ++ evs
       /\ searches_of evs = firstn j qs
       /\ j <= S k
       /\ (j = S k ->
           fst out = None
           /\ exists evs0 q,
                nth_error qs k = Some q /\ evs = evs0 ++ [EvSearch q]))
  /\ (forall k,
        nth_error (responses svc qs (world s)) k = Some None ->
        (forall j, j < k ->
           nth_error (responses svc qs (world s)) j = Some (Some [])) ->
        fst out = None
        /\ stdin (snd out) = stdin s
        /\ log (snd out) = log s ++ map EvSearch (firstn (S k) qs))
  /\ (forall q rest s0 w,
        sp_search svc q (world s0) = (None, w) ->
        try_except (query_loop svc standard_title artist (q :: rest))
                   (ret None) s0
          = (None, emit (EvSearch q) w s0))
  /\ ((forall r, In r (responses svc qs (world s)) -> no_candidates r) ->
      fst out = None).
Proof.
  intros qs out. split; [|split; [|split]].
  - intros k Hk.
    destruct (query_loop_error_stops svc standard_title artist qs s k Hk)
      as (evs & j & E & S1 & Hj & Hlast).
    exists evs, j. subst out.
    unfold search_spotify_track, try_except, bind. fold qs.
    destruct (query_loop svc standard_title artist qs s) as [[r|] s1];
      cbn [fst snd ret] in *.
    + split; [exact E|]. split; [exact S1|]. split; [exact Hj|].
      intros Hj'. destruct (Hlast Hj') as [Hr _]. discriminate.
    + split; [exact E|]. split; [exact S1|]. split; [exact Hj|].
      intros Hj'. destruct (Hlast Hj') as [_ H]. now split.
  - intros k Hk Hbefore.
    destruct (query_loop_error_after_empty svc standard_title artist qs s k
                Hk Hbefore) as [w E].
    subst out. unfold search_spotify_track, try_except, bind. fold qs.
    rewrite E. cbn. auto.
  - intros q rest s0 w E. unfold try_except, bind.
    rewrite (query_loop_raises svc standard_title artist q rest s0 w E).
    reflexivity.
  - intros H. subst out. unfold search_spotify_track, try_except, bind.
    fold qs.
    destruct (query_loop_no_candidates svc standard_title artist qs s H)
      as [s' [E | E]]; rewrite E; reflexivity.
Qed.

Lemma search_error_ends_resolution_witness :
  (let out := search_spotify_track
                (resolver_world (scripted (Some []) None (Some [leaves])))
                "Autumn Leaves" "Bill Evans" "1959" (start ["y"%string]) in
   fst out = None
   /\ stdin (snd out) = ["y"%string]
   /\ log (snd out) = [EvSearch "Bill Evans Autumn Leaves";
                       EvSearch "Bill Evans 1959"])
  /\ (let out := search_spotify_track
                   (resolver_world (scripted (Some []) (Some []) None))
                   "Autumn Leaves" "Bill Evans" "1959" (start []) in
      fst out = None
      /\ log (snd out) = [EvSearch "Bill Evans Autumn Leaves";
                          EvSearch "Bill Evans 1959";
                          EvSearch "Autumn Leaves Bill Evans"])
  /\ (let out := search_spotify_track
                   (resolver_world
                      (scripted (Some [other_song]) None (Some [leaves])))
                   "Autumn Leaves" "Bill Evans" "1959"
                   (start ["n"%string]) in
      exists evs j,
        log (snd out) = evs
        /\ searches_of evs
           = firstn j (queries "Autumn Leaves" "Bill Evans" "1959")
        /\ j <= 2
        /\ (j = 2 ->
            fst out = None
            /\ exists evs0 q,
                 nth_error (queries "Autumn Leaves" "Bill Evans" "1959") 1
                   = Some q
                 /\ evs = evs0 ++ [EvSearch q]))
  /\ search_spotify_track (resolver_world error_then_strong)
       "Autumn Leaves" "Bill Evans" "1959" (start [])
     = (None, {| world := tt; stdin := [];
                 log := [EvSearch "Bill Evans Autumn Leaves"] |})
  /\ fst (search_spotify_track (resolver_world error_then_empty)
            "Autumn Leaves" "Bill Evans" "1959" (start [])) = None.
Proof.
  split; [|split; [|split; [|split]]].
  - destruct (search_error_ends_resolution
                (resolver_world (scripted (Some []) None (Some [leaves])))
                "Autumn Leaves" "Bill Evans" "1959" (start ["y"%string]))
      as (_ & H & _).
    destruct (H 1 eq_refl) as (H1 & H2 & H3).
    + intros j Hj. destruct j; [reflexivity | lia].
    + cbv zeta. split; [exact H1|]. split; [exact H2 | exact H3].
  - destruct (search_error_ends_resolution
                (resolver_world (scripted (Some []) (Some []) None))
                "Autumn Leaves" "Bill Evans" "1959" (start []))
      as (_ & H & _).
    destruct (H 2 eq_refl) as (H1 & _ & H3).
    + intros j Hj. destruct j as [|[|j]]; [reflexivity | reflexivity | lia].
    + cbv zeta. split; [exact H1 | exact H3].
  - destruct (search_error_ends_resolution
                (resolver_world
                   (scripted (Some [other_song]) None (Some [leaves])))
                "Autumn Leaves" "Bill Evans" "1959" (start ["n"%string]))
      as (H & _).
    exact (H 1 eq_refl).
  - destruct (search_error_ends_resolution
                (resolver_world error_then_strong)
                "Autumn Leaves" "Bill Evans" "1959" (start []))
      as (_ & _ & H & _).
    exact (H "Bill Evans Autumn Leaves"%string
             ["Bill Evans 1959"; "Autumn Leaves Bill Evans"]%string
             (start []) tt eq_refl).
  - destruct (search_error_ends_resolution
                (resolver_world error_then_empty)
                "Autumn Leaves" "Bill Evans" "1959" (start []))
      as (_ & _ & _ & H).
    apply H. intros r Hr. cbn in Hr.
    destruct Hr as [<- | [<- | [<- | []]]];
      [left | right | right]; reflexivity.
Defined.

(** The raising search reached through a rejected proposal: query 1 is
    answered with a weak candidate that is rejected, the search of query 2
    raises, and query 3, which would find a strong match, is not issued. *)
Example error_after_rejection :
  search_spotify_track
    (resolver_world (scripted (Some [other_song]) None (Some [leaves])))
    "Autumn Leaves" "Bill Evans" "1959" (start ["n"%string])
  = (None, {| world := tt; stdin := [];
              log := [EvSearch "Bill Evans Autumn Leaves"; EvPrompt;
                      EvSearch "Bill Evans 1959"] |}).
Proof. reflexivity. Qed.
